(** * Face_Detection_Game: the weighted sector wheel and gaze-to-sector resolution

    A shallow embedding of [script.js].

    The arithmetic of the script is kept abstract in the wheel, its layout,
    its generator and the sector scan (class [Arith]), and read in two ways:

    - [Binary64]: IEEE 754 binary64 with round-to-nearest-even, the numbers
      the script computes with.  Which sector a scan stops at, and whether
      it stops at all, is settled in this arithmetic.
    - [Real]: the real numbers, the idealised reading in which the formulas
      of the layout are stated ([Math.PI] is [PI], no rounding).

    [Math.atan2], [Math.cos], [Math.sin] and [Math.sqrt] exist on the reals
    only; the code around them (the heading, the angle of the drawn ray, the
    per-frame callback, the text placement) is embedded on the reals.
    Where the script would produce NaN from an [undefined] operand the
    embedding follows the control flow that NaN causes. *)

From Stdlib Require Import Floats.
From Stdlib Require Import Reals Lra Lia ZArith.
From stdpp Require Import base option list strings gmap pretty.
From Equations Require Import Equations.

Local Open Scope R_scope.

(** ** Numbers *)

(** The operations the script applies to numbers. *)
Class Arith (num : Type) : Type := mkArith {
  nadd : num -> num -> num;
  nsub : num -> num -> num;
  nmul : num -> num -> num;
  ndiv : num -> num -> num;
  nneg : num -> num;
  nltb : num -> num -> bool;
  ngeb : num -> num -> bool;
  (** an integer literal *)
  fromZ : Z -> num;
  (** [Math.PI] *)
  Math_PI : num;
  (** [Math.floor], as a natural number index (the script only floors
      non-negative products of [Math.random()] and a length) *)
  floorIndex : num -> nat
}.

Declare Scope num_scope.
Delimit Scope num_scope with num.
Infix "+" := nadd : num_scope.
Infix "-" := nsub : num_scope.
Infix "*" := nmul : num_scope.
Infix "/" := ndiv : num_scope.
Notation "- x" := (nneg x) : num_scope.

(** A decimal literal [n / d], such as [0.8] as [dec 8 10]: the quotient of
    two integers, rounded once in binary64 as the literal is. *)
Definition dec {num : Type} {A : Arith num} (n d : Z) : num :=
  (fromZ n / fromZ d)%num.

Module JsNum.

(** The relational operators on the reals, as booleans. *)
Definition Rltb (a b : R) : bool := if Rlt_dec a b then true else false.
Definition Rgeb (a b : R) : bool := if Rge_dec a b then true else false.
Definition Rgtb (a b : R) : bool := if Rgt_dec a b then true else false.

Definition floor (r : R) : Z := Int_part r.

(** [Math.atan2(y, x)] on the reals: the angle in (-PI, PI] of the point
    (x, y).  The script always passes [x = -headingX]: a zero heading
    reaches [Math.atan2(0, -0)], which is [Math.PI], so a zero [x] stands
    for the negative zero here. *)
Definition atan2 (y x : R) : R :=
  if Rlt_dec 0 x then atan (y / x)
  else if Rlt_dec x 0 then
         (if Rle_dec 0 y then atan (y / x) + PI else atan (y / x) - PI)
  else if Rlt_dec 0 y then PI / 2
  else if Rlt_dec y 0 then - (PI / 2)
  else PI.

(** An integer literal in binary64. *)
Definition floatOfZ (z : Z) : float :=
  match z with
  | Z0 => PrimFloat.zero
  | Zpos _ => PrimFloat.of_uint63 (Uint63.of_Z z)
  | Zneg p => PrimFloat.opp (PrimFloat.of_uint63 (Uint63.of_Z (Zpos p)))
  end.

(** [Math.floor] of a binary64 number that is finite and not negative; the
    script floors no other. *)
Definition floatFloor (f : float) : Z :=
  match Prim2SF f with
  | S754_finite false m e =>
      if (0 <=? e)%Z then Z.shiftl (Zpos m) e else Z.shiftr (Zpos m) (- e)
  | _ => 0%Z
  end.

End JsNum.
Import JsNum.

(** The real numbers. *)
#[export] Instance Real : Arith R :=
  mkArith R Rplus Rminus Rmult Rdiv Ropp Rltb Rgeb IZR PI
    (fun r => Z.to_nat (floor r)).

(** IEEE 754 binary64; [Math.PI] is 0x1.921fb54442d18p+1. *)
#[export] Instance Binary64 : Arith float :=
  mkArith float PrimFloat.add PrimFloat.sub PrimFloat.mul PrimFloat.div
    PrimFloat.opp PrimFloat.ltb (fun a b => PrimFloat.leb b a) floatOfZ
    0x1.921fb54442d18p+1%float
    (fun f => Z.to_nat (floatFloor f)).

(** ** Normalising the ray angle: the two [while] loops of
       [detectDrawnRaySectorPrize] *)

(** Number of turns the first loop still has to add to [r]. *)
Definition turnsBelow (r : R) : nat :=
  Z.to_nat (up ((- PI / 2 - r) / (2 * PI))).

(** Number of turns the second loop still has to take off [r]. *)
Definition turnsAbove (r : R) : nat :=
  Z.to_nat (up ((r - 3 * PI / 2) / (2 * PI)) ).

(** [while (rayAngle < -Math.PI / 2) rayAngle += 2 * Math.PI;] *)
Equations? raiseAngle (rayAngle : R) : R by wf (turnsBelow rayAngle) lt :=
  raiseAngle rayAngle with Rlt_dec rayAngle (- PI / 2) := {
    | left below => raiseAngle (rayAngle + 2 * PI)
    | right _ => rayAngle }.
Proof.
  unfold turnsBelow. assert (Hpi := PI_RGT_0).
  set (q := (- PI / 2 - rayAngle) / (2 * PI)).
  replace ((- PI / 2 - (rayAngle + 2 * PI)) / (2 * PI)) with (q - 1)
    by (unfold q; field; lra).
  assert (Hq : 0 < q) by (apply Rdiv_lt_0_compat; lra).
  destruct (archimed q) as [Hq1 Hq2].
  assert (E : up (q - 1) = (up q - 1)%Z)
    by (symmetry; apply tech_up; rewrite minus_IZR; lra).
  assert (0 < up q)%Z by (apply lt_IZR; lra).
  rewrite E. lia.
Qed.

(** [while (rayAngle >= 3 * Math.PI / 2) rayAngle -= 2 * Math.PI;] *)
Equations? lowerAngle (rayAngle : R) : R by wf (turnsAbove rayAngle) lt :=
  lowerAngle rayAngle with Rge_dec rayAngle (3 * PI / 2) := {
    | left above => lowerAngle (rayAngle - 2 * PI)
    | right _ => rayAngle }.
Proof.
  unfold turnsAbove. assert (Hpi := PI_RGT_0).
  set (q := (rayAngle - 3 * PI / 2) / (2 * PI)).
  replace ((rayAngle - 2 * PI - 3 * PI / 2) / (2 * PI)) with (q - 1)
    by (unfold q; field; lra).
  assert (Hq : 0 <= q) by (apply Rle_mult_inv_pos; lra).
  destruct (archimed q) as [Hq1 Hq2].
  assert (E : up (q - 1) = (up q - 1)%Z)
    by (symmetry; apply tech_up; rewrite minus_IZR; lra).
  assert (0 < up q)%Z by (apply lt_IZR; lra).
  rewrite E. lia.
Qed.

Definition normalizeRayAngle (rayAngle : R) : R :=
  lowerAngle (raiseAngle rayAngle).

(** ** The prize table *)

(** A colour label as the script holds it: a string, or [undefined]
    ([None]) when it was read past the end of an array. *)
Definition Label : Type := option string.

(** Reading [arr[i]]: [undefined] past the end and for an undefined entry. *)
Definition jsIndex {A : Type} (arr : list (option A)) (i : nat) : option A :=
  mjoin (arr !! i).

(** A property key made from a label; [undefined] is spelled out. *)
Definition propertyKey (c : Label) : string := default "undefined" c.

(** What reading a property of [prizeValues] can give: a number of the
    table, or the member of that name inherited from [Object.prototype]
    (a function, or the prototype object itself for [__proto__]). *)
Inductive JsValue : Type :=
  | JsNumber (n : Z)
  | JsInherited (name : string).

(** [const prizeValues = { ... }]: the table's own properties. *)
Definition prizeValues : gmap string Z :=
  list_to_map
    [ ("#FF78A3", 100%Z); ("#47D495", 50%Z); ("#FFCC8D", 20%Z);
      ("#87C9EA", 10%Z); ("#C088D2", 5%Z); ("#DDDDDD", 1%Z) ].

(** The names an object literal inherits from [Object.prototype]. *)
Definition objectPrototypeKeys : list string :=
  [ "constructor"; "hasOwnProperty"; "isPrototypeOf"; "propertyIsEnumerable";
    "toLocaleString"; "toString"; "valueOf"; "__proto__";
    "__defineGetter__"; "__defineSetter__";
    "__lookupGetter__"; "__lookupSetter__" ].

(** [prizeValues[key]]: an own property first, then the prototype chain;
    [undefined] ([None]) when neither has the key. *)
Definition getProperty (key : string) : option JsValue :=
  match prizeValues !! key with
  | Some v => Some (JsNumber v)
  | None =>
      if bool_decide (key ∈ objectPrototypeKeys)
      then Some (JsInherited key) else None
  end.

(** Functions and objects are truthy, and every number but 0. *)
Definition truthy (v : JsValue) : bool :=
  match v with
  | JsNumber n => negb (Z.eqb n 0)
  | JsInherited _ => true
  end.

(** [a || b] on the value of a property read. *)
Definition jsOr (a : option JsValue) (b : JsValue) : JsValue :=
  match a with
  | Some v => if truthy v then v else b
  | None => b
  end.

(** [prizeValues[color] || 0] *)
Definition prizeOf (color : Label) : JsValue :=
  jsOr (getProperty (propertyKey color)) (JsNumber 0).

(** ** The wheel state *)

(** The object stored in [sectorData]. *)
Record SectorData (num : Type) : Type := mkSectorData {
  assignments : list Label;
  weights : list num;
  totalWeight : num;
  totalSectors : nat
}.
Arguments mkSectorData {num} _ _ _ _.
Arguments assignments {num} _.
Arguments weights {num} _.
Arguments totalWeight {num} _.
Arguments totalSectors {num} _.

(** ** Resolving the drawn ray to a prize *)

Section Scan.

Context {num : Type} {A : Arith num}.

(** The [for] loop of [detectDrawnRaySectorPrize] with [n] iterations left,
    at index [i] with the running [currentAngle].  A missing weight makes
    the span NaN: no later comparison holds and the loop falls through to
    the final [return 0]. *)
Fixpoint sectorLoop (sd : SectorData num) (rayAngle : num)
    (n i : nat) (currentAngle : num) : JsValue :=
  match n with
  | O => JsNumber 0
  | S n' =>
      match weights sd !! i with
      | None => JsNumber 0
      | Some w =>
          let span := (w / totalWeight sd * fromZ 2 * Math_PI)%num in
          let endAngle := (currentAngle + span)%num in
          if ngeb rayAngle currentAngle && nltb rayAngle endAngle
          then let color := jsIndex (assignments sd) i in prizeOf color
          else sectorLoop sd rayAngle n' (S i) endAngle
      end
  end.

(** The same loop, instrumented to report the index [i] at which it
    returns ([None] when it falls through). *)
Fixpoint sectorLoopIndex (sd : SectorData num) (rayAngle : num)
    (n i : nat) (currentAngle : num) : option nat :=
  match n with
  | O => None
  | S n' =>
      match weights sd !! i with
      | None => None
      | Some w =>
          let span := (w / totalWeight sd * fromZ 2 * Math_PI)%num in
          let endAngle := (currentAngle + span)%num in
          if ngeb rayAngle currentAngle && nltb rayAngle endAngle
          then Some i
          else sectorLoopIndex sd rayAngle n' (S i) endAngle
      end
  end.

(** The scan of lines 42-56 at a given ray angle. *)
Definition sectorPrizeAt (sd : SectorData num) (rayAngle : num) : JsValue :=
  let currentAngle := (- Math_PI / fromZ 2)%num in
  sectorLoop sd rayAngle (totalSectors sd) 0 currentAngle.

Definition sectorIndexAt (sd : SectorData num) (rayAngle : num)
  : option nat :=
  sectorLoopIndex sd rayAngle (totalSectors sd) 0
    (- Math_PI / fromZ 2)%num.

End Scan.

(** The angle of the drawn ray, normalised: lines 31-40 of the script. *)
Definition drawnRayAngle (headingX headingY : R) : R :=
  let drawnRayX := - headingX in
  let drawnRayY := headingY in
  let rayAngle := atan2 drawnRayY drawnRayX in
  normalizeRayAngle rayAngle.

(** [function detectDrawnRaySectorPrize(headingX, headingY)]; the global
    [sectorData] is passed in. *)
Definition detectDrawnRaySectorPrize (sectorData : option (SectorData R))
    (headingX headingY : R) : JsValue :=
  match sectorData with
  | None => JsNumber 0
  | Some sd => sectorPrizeAt sd (drawnRayAngle headingX headingY)
  end.

(** ** Face heading *)

Module Landmark.
Record t : Type := mk { x : R; y : R; z : R }.
End Landmark.

Module Heading.
Record t : Type := mk { x : R; y : R }.
End Heading.

(** One face: the array of landmarks, any entry possibly [undefined]. *)
Definition LandmarkSet : Type := list (option Landmark.t).

(** Exceptions the script can raise. *)
Inductive Exn : Type :=
  | TypeError (reading : string).

Inductive Result (A : Type) : Type :=
  | Ok (a : A)
  | Throw (e : Exn).
Arguments Ok {A} a.
Arguments Throw {A} e.

Definition bindResult {A B : Type} (r : Result A) (k : A -> Result B)
  : Result B :=
  match r with
  | Ok a => k a
  | Throw e => Throw e
  end.

(** Reading a property of [v]: a TypeError when [v] is [undefined]. *)
Definition readProps {A : Type} (v : option A) (prop : string) : Result A :=
  match v with
  | Some a => Ok a
  | None => Throw (TypeError prop)
  end.

Definition NOSE_TIP : nat := 1.
Definition LEFT_EAR_TRAGION : nat := 234.
Definition RIGHT_EAR_TRAGION : nat := 454.
Definition sensitivity : R := 20.

(** [function calculateFaceHeading(landmarks)].  The property reads happen
    in the order of the script: [leftEar.x], [rightEar.x], then [nose.x]. *)
Definition calculateFaceHeading (landmarks : LandmarkSet) : Result Heading.t :=
  let nose := jsIndex landmarks NOSE_TIP in
  let leftEar := jsIndex landmarks LEFT_EAR_TRAGION in
  let rightEar := jsIndex landmarks RIGHT_EAR_TRAGION in
  bindResult (readProps leftEar "x") (fun leftEar =>
  bindResult (readProps rightEar "x") (fun rightEar =>
  let midPoint :=
    Landmark.mk ((Landmark.x leftEar + Landmark.x rightEar) / 2)
                ((Landmark.y leftEar + Landmark.y rightEar) / 2)
                ((Landmark.z leftEar + Landmark.z rightEar) / 2) in
  bindResult (readProps nose "x") (fun nose =>
  let dirX := Landmark.x nose - Landmark.x midPoint in
  let dirY := Landmark.y nose - Landmark.y midPoint in
  Ok (Heading.mk (dirX * sensitivity) (dirY * sensitivity))))).

(** ** The page: canvases, the prize display and the wheel *)

(** What has been painted on a canvas since its size was last set
    (setting [width] or [height] clears a canvas). *)
Inductive DrawCmd (num : Type) : Type :=
  | ClearRect (x y w h : num)
  | StrokeLine (x0 y0 x1 y1 lineWidth : num) (strokeStyle : string)
  | FillStrokeCircle (cx cy radius : num) (fillStyle strokeStyle : string)
      (lineWidth : num)
  | FillWedge (cx cy radius startAngle endAngle : num)
      (fillStyle : option string)
  | OutlinedText (text : string) (x y : num) (strokeStyle : string)
      (lineWidth : num) (fillStyle : string).
Arguments ClearRect {num} _ _ _ _.
Arguments StrokeLine {num} _ _ _ _ _ _.
Arguments FillStrokeCircle {num} _ _ _ _ _ _.
Arguments FillWedge {num} _ _ _ _ _ _.
Arguments OutlinedText {num} _ _ _ _ _ _.

Record Canvas : Type := mkCanvas {
  width : R;
  height : R;
  painted : list (DrawCmd R)
}.

(** [window.innerWidth] and [window.innerHeight], read from the browser. *)
Record Window : Type := mkWindow {
  innerWidth : R;
  innerHeight : R
}.

(** The mutable globals of the script. *)
Record Page : Type := mkPage {
  sectorData : option (SectorData R);
  moneyDisplay_textContent : string;
  canvasElement : Canvas;
  bgCanvas : Canvas
}.

Definition set_moneyDisplay (text : string) (p : Page) : Page :=
  mkPage (sectorData p) text (canvasElement p) (bgCanvas p).
Definition set_canvasElement (c : Canvas) (p : Page) : Page :=
  mkPage (sectorData p) (moneyDisplay_textContent p) c (bgCanvas p).
Definition set_bgCanvas (c : Canvas) (p : Page) : Page :=
  mkPage (sectorData p) (moneyDisplay_textContent p) (canvasElement p) c.
Definition set_sectorData (sd : option (SectorData R)) (p : Page) : Page :=
  mkPage sd (moneyDisplay_textContent p) (canvasElement p) (bgCanvas p).

Definition paint (cmds : list (DrawCmd R)) (c : Canvas) : Canvas :=
  mkCanvas (width c) (height c) (painted c ++ cmds).

(** The text a number assigned to [textContent] becomes. *)
Definition numberToString (n : Z) : string := pretty n.

(** The text a value assigned to [textContent] becomes: a native function
    prints as its source text, the prototype object as [[object Object]]. *)
Definition valueToString (v : JsValue) : string :=
  match v with
  | JsNumber n => numberToString n
  | JsInherited name =>
      if String.eqb name "__proto__" then "[object Object]"
      else if String.eqb name "constructor"
           then "function Object() { [native code] }"
           else "function " +:+ name +:+ "() { [native code] }"
  end.

(** ** The per-frame callback *)

(** What the face tracker hands to [onResults]. *)
Record Results : Type := mkResults {
  multiFaceLandmarks : option (list LandmarkSet)
}.

(** The body of the [for ... of] loop of [onResults] for one face. *)
Definition processFace (landmarks : LandmarkSet) (p : Page)
  : Result unit * Page :=
  match calculateFaceHeading landmarks with
  | Throw e => (Throw e, p)
  | Ok heading =>
      let canvas := canvasElement p in
      let centerX := width canvas / 2 in
      let centerY := height canvas / 2 in
      let rayLength := Rmax (width canvas) (height canvas) * 1.5 in
      let endX := centerX + Heading.x heading * rayLength in
      let endY := centerY + Heading.y heading * rayLength in
      let p := set_canvasElement
                 (paint [ StrokeLine centerX centerY endX endY 6 "#0062FF";
                          FillStrokeCircle centerX centerY 10
                            "#FFFFFF" "#00008B" 2 ] canvas) p in
      let prize := detectDrawnRaySectorPrize (sectorData p)
                     (Heading.x heading) (Heading.y heading) in
      (Ok tt, set_moneyDisplay (valueToString prize) p)
  end.

(** The loop itself: an exception leaves it, keeping what was done. *)
Fixpoint processFaces (faces : list LandmarkSet) (p : Page)
  : Result unit * Page :=
  match faces with
  | [] => (Ok tt, p)
  | landmarks :: rest =>
      match processFace landmarks p with
      | (Ok _, p') => processFaces rest p'
      | (Throw e, p') => (Throw e, p')
      end
  end.

(** [function onResults(results)] *)
Definition onResults (window : Window) (results : Results) (p : Page)
  : Result unit * Page :=
  let w := innerWidth window in
  let h := innerHeight window in
  let p := set_canvasElement (mkCanvas w h [ClearRect 0 0 w h]) p in
  match multiFaceLandmarks results with
  | Some faces => processFaces faces p
  | None => (Ok tt, p)
  end.

(** ** Generating the wheel *)

(** [u] is a value [Math.random()] can return: [0 <= u < 1]. *)
Definition inUnit {num : Type} {A : Arith num} (u : num) : Prop :=
  ngeb u (fromZ 0) = true /\ nltb u (fromZ 1) = true.

(** The values [Math.random()] returns, call after call: each in [0, 1). *)
Record RandomSource (num : Type) {A : Arith num} : Type := mkRandomSource {
  nextRandom : nat -> num;
  nextRandom_range : forall k, inUnit (nextRandom k)
}.
Arguments mkRandomSource {num A} _ _.
Arguments nextRandom {num A} _ _.
Arguments nextRandom_range {num A} _ _.

(** Code that calls [Math.random()]: the number of calls made so far is
    threaded through. *)
Definition Rand (A : Type) : Type := nat -> A * nat.

Definition retRand {A : Type} (a : A) : Rand A := fun k => (a, k).
Definition bindRand {A B : Type} (m : Rand A) (f : A -> Rand B) : Rand B :=
  fun k => let (a, k') := m k in f a k'.

Notation "'do' x <~ m ; f" := (bindRand m (fun x => f))
  (at level 10, x name, m at level 100, f at level 200).

(** [[a[i], a[j]] = [a[j], a[i]]]: both entries are read, then [a[i]] and
    [a[j]] are written in that order.  The shuffle only calls it with
    [j <= i < a.length], so both writes are inside the array. *)
Definition swapEntries (a : list Label) (i j : nat) : list Label :=
  let aj := jsIndex a j in
  let ai := jsIndex a i in
  <[j := ai]> (<[i := aj]> a).

Section Generator.

Context {num : Type} {A : Arith num}.
Variable rs : RandomSource num.
Variable palette : list string.
Variable totalSectors : nat.

(** [Math.random()] *)
Definition random : Rand num := fun k => (nextRandom rs k, S k).

(** [palette[Math.floor(Math.random() * palette.length)]] *)
Definition randomColor : Rand Label :=
  do u <~ random;
  retRand (palette !! floorIndex (u * fromZ (Z.of_nat (length palette)))%num).

(** [while (assignments.length < totalSectors) assignments.push(...)]:
    the loop runs [totalSectors - assignments.length] times, [n] here. *)
Fixpoint fillAssignments (n : nat) (assignments : list Label)
  : Rand (list Label) :=
  match n with
  | O => retRand assignments
  | S n' =>
      do c <~ randomColor;
      fillAssignments n' (assignments ++ [c])
  end.

(** [for (let i = assignments.length - 1; i > 0; i--)], entered at [i]. *)
Fixpoint shuffleLoop (i : nat) (assignments : list Label)
  : Rand (list Label) :=
  match i with
  | O => retRand assignments
  | S i' =>
      do u <~ random;
      let j := floorIndex (u * fromZ (Z.of_nat (i + 1)))%num in
      shuffleLoop i' (swapEntries assignments i j)
  end.

(** [Array.from({length: n}, () => Math.random() * 0.8 + 0.4)] *)
Fixpoint drawWeights (n : nat) : Rand (list num) :=
  match n with
  | O => retRand []
  | S n' =>
      do u <~ random;
      do ws <~ drawWeights n';
      retRand ((u * dec 8 10 + dec 4 10)%num :: ws)
  end.

(** The assignments before the shuffle: lines 221-224. *)
Definition seedAssignments : Rand (list Label) :=
  let assignments := Some <$> palette in
  fillAssignments (totalSectors - length assignments) assignments.

(** Lines 221-237 of [initDynamicBackground]: the value stored in
    [sectorData]. *)
Definition generateSectorData : Rand (SectorData num) :=
  do assignments <~ seedAssignments;
  do assignments <~ shuffleLoop (length assignments - 1) assignments;
  do weights <~ drawWeights totalSectors;
  let totalWeight := fold_left nadd weights (fromZ 0) in
  retRand (mkSectorData assignments weights totalWeight totalSectors).

End Generator.

Definition palette : list string :=
  ["#FF78A3"; "#47D495"; "#FFCC8D"; "#87C9EA"; "#C088D2"; "#DDDDDD"].

(** The wheel [initDynamicBackground] stores, for the random values [rs]. *)
Definition generatedWheel {num : Type} {A : Arith num}
    (rs : RandomSource num) : SectorData num :=
  fst (generateSectorData rs palette 20 0%nat).

(** ** Drawing the wheel *)

(** An entry of [sectorAngles]. *)
Record SectorAngle (num : Type) : Type := mkSectorAngle {
  startAngle : num;
  endAngle : num;
  midAngle : num;
  color : Label
}.
Arguments mkSectorAngle {num} _ _ _ _.
Arguments startAngle {num} _.
Arguments endAngle {num} _.
Arguments midAngle {num} _.
Arguments color {num} _.

Section Layout.

Context {num : Type} {A : Arith num}.

Definition borderWidth : num := dec 5 10.

(** The [for] loop of [drawBackground] with [n] iterations left: the
    entries pushed to [sectorAngles] and the wedges painted.  From a missing
    weight on every angle is NaN and nothing is painted; the lists stop
    there. *)
Fixpoint layoutLoop (sd : SectorData num) (centerX centerY radius : num)
    (n i : nat) (currentAngle : num)
  : list (SectorAngle num) * list (DrawCmd num) :=
  match n with
  | O => ([], [])
  | S n' =>
      match weights sd !! i with
      | None => ([], [])
      | Some w =>
          let span := (w / totalWeight sd * fromZ 2 * Math_PI)%num in
          let borderRad :=
            (borderWidth / fromZ 360 * fromZ 2 * Math_PI)%num in
          let color := jsIndex (assignments sd) i in
          let sector := mkSectorAngle currentAngle (currentAngle + span)%num
                          (currentAngle + span / fromZ 2)%num color in
          let wedges :=
            [ FillWedge centerX centerY radius currentAngle
                (currentAngle + span - borderRad)%num color;
              FillWedge centerX centerY radius
                (currentAngle + span - borderRad)%num
                (currentAngle + span)%num
                (Some "#FFFFFF") ] in
          let (sectors, cmds) :=
            layoutLoop sd centerX centerY radius n' (S i)
              (currentAngle + span)%num in
          (sector :: sectors, wedges ++ cmds)
      end
  end.

(** The [sectorAngles] array [drawBackground] builds; it does not depend on
    the pixel geometry. *)
Definition sectorAngles (sd : SectorData num) : list (SectorAngle num) :=
  fst (layoutLoop sd (fromZ 0) (fromZ 0) (fromZ 0) (totalSectors sd) 0
         (- Math_PI / fromZ 2)%num).

(** The half-open test of the scan, on a drawn sector:
    [rayAngle >= startAngle && rayAngle < endAngle]. *)
Definition holdsAngle (s : SectorAngle num) (rayAngle : num) : bool :=
  ngeb rayAngle (startAngle s) && nltb rayAngle (endAngle s).

End Layout.

(** The [if]/[else if] chain choosing [prizeText] and [textColor]. *)
Definition prizeLabel (c : Label) : option (string * string) :=
  match c with
  | Some s =>
      if String.eqb s "#FF78A3" then Some ("100 元", "#FF78A3")
      else if String.eqb s "#47D495" then Some ("50 元", "#47D495")
      else if String.eqb s "#FFCC8D" then Some ("20 元", "#FFCC8D")
      else if String.eqb s "#87C9EA" then Some ("10 元", "#87C9EA")
      else if String.eqb s "#C088D2" then Some ("5 元", "#C088D2")
      else if String.eqb s "#DDDDDD" then Some ("1 元", "#AAAAAA")
      else None
  | None => None
  end.

(** [Math.min(t, v)] where [t] may still be [Infinity] ([None]). *)
Definition minT (t : option R) (v : R) : option R :=
  match t with
  | None => Some v
  | Some t0 => Some (Rmin t0 v)
  end.

(** The body of [sectorAngles.forEach]: the text painted for one sector.
    With [t] still [Infinity] the coordinates are not finite and the
    canvas paints nothing. *)
Definition sectorText (bg : Canvas) (centerX centerY : R)
    (sector : SectorAngle R) : list (DrawCmd R) :=
  match prizeLabel (color sector) with
  | None => []
  | Some (prizeText, textColor) =>
      let angle := midAngle sector in
      let dirX := cos angle in
      let dirY := sin angle in
      let t : option R := None in
      let t :=
        if Rgtb dirX 0 then
          let tRight := (width bg - centerX - 60) / dirX in
          if Rgtb tRight 0 then minT t tRight else t
        else if Rltb dirX 0 then
          let tLeft := (60 - centerX) / dirX in
          if Rgtb tLeft 0 then minT t tLeft else t
        else t in
      let t :=
        if Rgtb dirY 0 then
          let tBottom := (height bg - centerY - 40) / dirY in
          if Rgtb tBottom 0 then minT t tBottom else t
        else if Rltb dirY 0 then
          let tTop := (40 - centerY) / dirY in
          if Rgtb tTop 0 then minT t tTop else t
        else t in
      match t with
      | None => []
      | Some t =>
          let textX := centerX + dirX * t in
          let textY := centerY + dirY * t in
          [OutlinedText prizeText textX textY "#FFFFFF" 4 textColor]
      end
  end.

(** [function drawBackground()] *)
Definition drawBackground (window : Window) (p : Page) : Page :=
  match sectorData p with
  | None => p
  | Some sd =>
      let bg := mkCanvas (innerWidth window) (innerHeight window) [] in
      let centerX := width bg / 2 in
      let centerY := height bg / 2 in
      let radius := sqrt (centerX * centerX + centerY * centerY) + 50 in
      let (sectorAngles, wedges) :=
        layoutLoop sd centerX centerY radius (totalSectors sd) 0
          (- PI / 2) in
      let texts := concat (sectorText bg centerX centerY <$> sectorAngles) in
      set_bgCanvas (paint (wedges ++ texts) bg) p
  end.

(** [function initDynamicBackground()] *)
Definition initDynamicBackground (rs : RandomSource R) (window : Window)
    (p : Page) : Page :=
  drawBackground window (set_sectorData (Some (generatedWheel rs)) p).

(** ** Events *)

Inductive Event : Type :=
  | Resize (window : Window)
  | Frame (window : Window) (results : Results).

(** The listeners: [resize] redraws, a tracker result runs [onResults]
    (an exception ends the callback; the page keeps what was done). *)
Definition handle (e : Event) (p : Page) : Page :=
  match e with
  | Resize window => drawBackground window p
  | Frame window results => snd (onResults window results p)
  end.

Definition run (events : list Event) (p : Page) : Page :=
  fold_left (fun p e => handle e p) events p.

(** ** Derived notions used to state the properties *)

Definition sumR (l : list R) : R := foldr Rplus 0 l.

(** The angle at which sector [i] starts when the spans of the sectors
    before it are laid end to end from -PI/2, without rounding. *)
Definition boundary (sd : SectorData R) (i : nat) : R :=
  - PI / 2 + sumR (take i (weights sd)) / totalWeight sd * 2 * PI.

(** A wheel whose weights are positive, one per sector, with [totalWeight]
    their sum. *)
Record WellFormed (sd : SectorData R) : Prop := mkWellFormed {
  wf_length : length (weights sd) = totalSectors sd;
  wf_positive : Forall (fun w => 0 < w) (weights sd);
  wf_total : totalWeight sd = sumR (weights sd);
  wf_nonempty : (0 < totalSectors sd)%nat
}.

(** [rayAngle] lies in the half-open range of the sector [s]. *)
Definition inSector (s : SectorAngle R) (rayAngle : R) : Prop :=
  startAngle s <= rayAngle < endAngle s.

(** A label that, when it is a string, is one of [colors]. *)
Definition paletteLabel (colors : list string) (c : Label) : Prop :=
  forall s, c = Some s -> s ∈ colors.

(** A label whose property key names no member of [Object.prototype]. *)
Definition plainLabel (c : Label) : Prop :=
  propertyKey c ∉ objectPrototypeKeys.

(** The numbers of the prize table, and 0. *)
Definition prizeNumbers : list Z :=
  [100%Z; 50%Z; 20%Z; 10%Z; 5%Z; 1%Z; 0%Z].

(** ** Sample inputs *)

(** A random source that always returns one half, on the reals and in
    binary64. *)
Definition fixedSource : RandomSource R :=
  mkRandomSource (fun _ => 1 / 2)
    (fun _ => ltac:(split; simpl;
                    [unfold Rgeb; destruct (Rge_dec _ _)
                    | unfold Rltb; destruct (Rlt_dec _ _)];
                    (reflexivity || (exfalso; lra)))).

Definition fixedSource64 : RandomSource float :=
  mkRandomSource (fun _ => 0x1p-1%float) (fun _ => conj eq_refl eq_refl).

(** The wheel the script generates when every [Math.random()] is 0.5. *)
Definition wheel64 : SectorData float := generatedWheel fixedSource64.

(** The wheel the script generates when every [Math.random()] is 0.25.
    Its rounded boundary between the sectors 14 and 15 is
    3.1415926535897953, just above [Math.PI]. *)
Definition quarterSource64 : RandomSource float :=
  mkRandomSource (fun _ => 0x1p-2%float) (fun _ => conj eq_refl eq_refl).
Definition quarterWheel64 : SectorData float := generatedWheel quarterSource64.

(** 4.712388980384689, the binary64 number just below [3 * Math.PI / 2];
    it is what the first loop of the resolver makes of
    [Math.atan2(-1, -1e-15)] = -1.5707963267948977, the angle of the
    heading (1e-15, -1). *)
Definition seamAngle : float := 0x1.2d97c7f3321d1p+2%float.
Definition seamAtan2 : float := (-0x1.921fb54442d1dp+0)%float.

(** A wheel of one sector that takes the whole turn, labelled [label]. *)
Definition namedWheel {num : Type} {A : Arith num} (label : string)
  : SectorData num :=
  mkSectorData [Some label] [fromZ 1] (fromZ 1) 1.

(** A face with every landmark at the origin, and one cut off just before
    the right ear tragion. *)
Definition fullFace : LandmarkSet :=
  replicate 478 (Some (Landmark.mk 0 0 0)).
Definition cutFace : LandmarkSet :=
  replicate 454 (Some (Landmark.mk 0 0 0)).

(** A face looking to one side: nose at (1, 0), both ears at the origin. *)
Definition turnedFace : LandmarkSet :=
  <[NOSE_TIP := Some (Landmark.mk 1 0 0)]> fullFace.

Definition blankCanvas : Canvas := mkCanvas 0 0 [].
Definition sampleWindow : Window := mkWindow 1280 720.

(** A page showing a prize of 100 with no wheel generated. *)
Definition pageWithoutWheel : Page :=
  mkPage None "100" blankCanvas blankCanvas.

(** A page showing a prize of 100 over a wheel. *)
Definition pageWithWheel (sd : SectorData R) : Page :=
  mkPage (Some sd) "100" blankCanvas blankCanvas.

(** ** Proof automation *)

(** Settles [k ∉ objectPrototypeKeys] for a given key [k]. *)
Ltac not_inherited :=
  let Hin := fresh "Hin" in
  intros Hin; unfold objectPrototypeKeys in Hin;
  repeat (apply elem_of_cons in Hin as [Hin | Hin]; [discriminate Hin |]);
  apply elem_of_nil in Hin; exact Hin.

(** * Properties *)

(** ** Angle normalisation *)

Lemma raiseAngle_below (r : R) :
  r < - PI / 2 -> raiseAngle r = raiseAngle (r + 2 * PI).
Proof.
  intros H. rewrite raiseAngle_equation_1.
  destruct (Rlt_dec r (- PI / 2)); [reflexivity | contradiction].
Qed.

Lemma raiseAngle_done (r : R) : ~ r < - PI / 2 -> raiseAngle r = r.
Proof.
  intros H. rewrite raiseAngle_equation_1.
  destruct (Rlt_dec r (- PI / 2)); [contradiction | reflexivity].
Qed.

Lemma lowerAngle_above (r : R) :
  r >= 3 * PI / 2 -> lowerAngle r = lowerAngle (r - 2 * PI).
Proof.
  intros H. rewrite lowerAngle_equation_1.
  destruct (Rge_dec r (3 * PI / 2)); [reflexivity | contradiction].
Qed.

Lemma lowerAngle_done (r : R) : ~ r >= 3 * PI / 2 -> lowerAngle r = r.
Proof.
  intros H. rewrite lowerAngle_equation_1.
  destruct (Rge_dec r (3 * PI / 2)); [contradiction | reflexivity].
Qed.

(** The first loop ends at the first angle [r + 2 k PI] that is at least
    -PI/2. *)
Lemma raiseAngle_spec (r : R) :
  exists k : nat,
    raiseAngle r = r + 2 * INR k * PI /\
    - PI / 2 <= raiseAngle r /\
    (r < - PI / 2 -> raiseAngle r < 3 * PI / 2) /\
    (~ r < - PI / 2 -> raiseAngle r = r).
Proof.
  assert (Hpi := PI_RGT_0).
  funelim (raiseAngle r).
  - destruct (H Hpi) as (k & Hk & Hlo & Hhi & Hid).
    exists (S k). rewrite S_INR. split; [lra |].
    split; [exact Hlo |]. split; [| intros; lra].
    intros _. destruct (Rlt_dec (rayAngle + 2 * PI) (- PI / 2)) as [H1 | H1].
    + apply Hhi. exact H1.
    + rewrite (Hid H1). lra.
  - exists 0%nat. simpl.
    split; [lra |]. split; [lra |]. split; [intros; lra | reflexivity].
Qed.

(** The second loop ends at the first angle [r - 2 k PI] below 3PI/2. *)
Lemma lowerAngle_spec (r : R) :
  exists k : nat,
    lowerAngle r = r - 2 * INR k * PI /\
    lowerAngle r < 3 * PI / 2 /\
    (- PI / 2 <= r -> - PI / 2 <= lowerAngle r) /\
    (~ r >= 3 * PI / 2 -> lowerAngle r = r).
Proof.
  assert (Hpi := PI_RGT_0).
  funelim (lowerAngle r).
  - destruct (H Hpi) as (k & Hk & Hhi & Hlo & Hid).
    exists (S k). rewrite S_INR. split; [lra |].
    split; [exact Hhi |]. split; [| intros; lra].
    intros _. apply Hlo. lra.
  - exists 0%nat. simpl.
    split; [lra |]. split; [lra |]. split; [intros; lra | reflexivity].
Qed.

(** The normalised angle lies in [-PI/2, 3PI/2). *)
Lemma normalizeRayAngle_range (r : R) :
  - PI / 2 <= normalizeRayAngle r < 3 * PI / 2.
Proof.
  unfold normalizeRayAngle.
  destruct (raiseAngle_spec r) as (k & _ & Hlo & _ & _).
  destruct (lowerAngle_spec (raiseAngle r)) as (k' & _ & Hhi & Hlo' & _).
  split; [apply Hlo'; exact Hlo | exact Hhi].
Qed.

(** An angle already in range is left alone. *)
Lemma normalizeRayAngle_id (r : R) :
  - PI / 2 <= r < 3 * PI / 2 -> normalizeRayAngle r = r.
Proof.
  intros [Hlo Hhi]. unfold normalizeRayAngle.
  rewrite (raiseAngle_done r) by lra.
  apply lowerAngle_done. lra.
Qed.

(** An angle of the third quadrant, as [atan2] reports it, gains one turn. *)
Lemma normalizeRayAngle_turn (r : R) :
  - PI < r < - PI / 2 -> normalizeRayAngle r = r + 2 * PI.
Proof.
  intros [Hlo Hhi]. assert (Hpi := PI_RGT_0). unfold normalizeRayAngle.
  rewrite (raiseAngle_below r) by lra.
  rewrite (raiseAngle_done (r + 2 * PI)) by lra.
  apply lowerAngle_done. lra.
Qed.

(** ** [Math.atan2] *)

Lemma atan2_range (y x : R) : - PI < atan2 y x <= PI.
Proof.
  assert (Hpi := PI_RGT_0). unfold atan2.
  destruct (Rlt_dec 0 x) as [Hx | Hx].
  - pose proof (atan_bound (y / x)). lra.
  - destruct (Rlt_dec x 0) as [Hx' | Hx'].
    + destruct (Rle_dec 0 y) as [Hy | Hy].
      * assert (y / x <= 0).
        { pose proof (Rinv_lt_0_compat x Hx'). unfold Rdiv. nra. }
        assert (atan (y / x) <= 0).
        { rewrite <- atan_0. destruct H as [H | H].
          - left. apply atan_increasing. exact H.
          - rewrite H. lra. }
        pose proof (atan_bound (y / x)). lra.
      * assert (0 < y / x).
        { pose proof (Rinv_lt_0_compat x Hx'). unfold Rdiv. nra. }
        assert (0 < atan (y / x)).
        { rewrite <- atan_0. apply atan_increasing. exact H. }
        pose proof (atan_bound (y / x)). lra.
    + destruct (Rlt_dec 0 y); [lra |]. destruct (Rlt_dec y 0); lra.
Qed.

(** The heading (1, 0) mirrors to (-1, 0), whose angle is PI. *)
Lemma atan2_mirrored_unit : atan2 0 (Ropp 1) = PI.
Proof.
  unfold atan2.
  destruct (Rlt_dec 0 (Ropp 1)) as [H | _]; [lra |].
  destruct (Rlt_dec (Ropp 1) 0) as [_ | H]; [| lra].
  destruct (Rle_dec 0 0) as [_ | H]; [| lra].
  replace (0 / Ropp 1) with 0 by (field; lra).
  rewrite atan_0. lra.
Qed.

Lemma sqrt_sum_squares_pos (x y : R) :
  0 < x -> sqrt (x * x + y * y) = x * sqrt (1 + (y / x)²).
Proof.
  intros Hx.
  replace (x * x + y * y) with ((x * x) * (1 + (y / x)²))
    by (unfold Rsqr; field; lra).
  rewrite sqrt_mult; [| nra | unfold Rsqr; nra].
  rewrite sqrt_square by lra. reflexivity.
Qed.

Lemma sqrt_one_plus_sqr_pos (t : R) : 0 < sqrt (1 + t²).
Proof. apply sqrt_lt_R0. unfold Rsqr. nra. Qed.

(** [atan2 y x] is a polar angle of the point (x, y). *)
Lemma atan2_polar (y x : R) :
  let rho := sqrt (x * x + y * y) in
  x = rho * cos (atan2 y x) /\ y = rho * sin (atan2 y x).
Proof.
  intros rho. subst rho. unfold atan2.
  destruct (Rlt_dec 0 x) as [Hx | Hx].
  - rewrite cos_atan, sin_atan, (sqrt_sum_squares_pos x y Hx).
    pose proof (sqrt_one_plus_sqr_pos (y / x)).
    split; field; lra.
  - destruct (Rlt_dec x 0) as [Hx' | Hx'].
    + assert (Hs : sqrt (x * x + y * y) = - x * sqrt (1 + (y / x)²)).
      { replace (x * x + y * y) with ((- x) * (- x) + (- y) * (- y)) by ring.
        rewrite sqrt_sum_squares_pos by lra.
        do 2 f_equal. unfold Rsqr. field. lra. }
      pose proof (sqrt_one_plus_sqr_pos (y / x)).
      destruct (Rle_dec 0 y) as [Hy | Hy].
      * rewrite neg_cos, neg_sin, cos_atan, sin_atan, Hs.
        split; field; lra.
      * replace (atan (y / x) - PI) with (- (PI - atan (y / x))) by ring.
        rewrite cos_neg, sin_neg.
        replace (PI - atan (y / x)) with (- atan (y / x) + PI) by ring.
        rewrite neg_cos, neg_sin, cos_neg, sin_neg, cos_atan, sin_atan, Hs.
        split; field; lra.
    + assert (x = 0) by lra. subst x.
      replace (0 * 0 + y * y) with (y * y) by ring.
      destruct (Rlt_dec 0 y) as [Hy | Hy].
      * rewrite cos_PI2, sin_PI2, sqrt_square by lra. lra.
      * destruct (Rlt_dec y 0) as [Hy' | Hy'].
        -- rewrite cos_neg, sin_neg, cos_PI2, sin_PI2.
           replace (y * y) with ((- y) * (- y)) by ring.
           rewrite sqrt_square by lra. lra.
        -- assert (y = 0) by lra. subst y.
           rewrite Rmult_0_l, sqrt_0. lra.
Qed.

(** ** The drawn ray *)

Lemma drawnRayAngle_range (hx hy : R) :
  - PI / 2 <= drawnRayAngle hx hy < 3 * PI / 2.
Proof. apply normalizeRayAngle_range. Qed.

(** The resolved angle is a polar angle of the mirrored ray (-hx, hy). *)
Lemma drawnRayAngle_polar (hx hy : R) :
  let rho := sqrt (hx * hx + hy * hy) in
  - hx = rho * cos (drawnRayAngle hx hy) /\
  hy = rho * sin (drawnRayAngle hx hy).
Proof.
  intros rho. unfold drawnRayAngle. cbv zeta.
  pose proof (atan2_polar hy (- hx)) as Hp. cbv zeta in Hp.
  replace (- hx * - hx + hy * hy) with (hx * hx + hy * hy) in Hp by ring.
  fold rho in Hp.
  pose proof (atan2_range hy (- hx)) as Hr.
  assert (Hpi := PI_RGT_0).
  destruct (Rlt_dec (atan2 hy (- hx)) (- PI / 2)) as [Hlt | Hge].
  - rewrite normalizeRayAngle_turn by lra.
    replace (atan2 hy (- hx) + 2 * PI)
      with (atan2 hy (- hx) + 2 * INR 1 * PI) by (simpl; ring).
    rewrite cos_period, sin_period. exact Hp.
  - rewrite normalizeRayAngle_id by lra. exact Hp.
Qed.

Lemma drawnRayAngle_unit : drawnRayAngle 1 0 = PI.
Proof.
  unfold drawnRayAngle. cbv zeta. rewrite atan2_mirrored_unit.
  apply normalizeRayAngle_id. assert (Hpi := PI_RGT_0). lra.
Qed.

(** A zero heading reaches [Math.atan2(0, -0)]: the angle is PI. *)
Lemma drawnRayAngle_origin : drawnRayAngle 0 0 = PI.
Proof.
  assert (Hpi := PI_RGT_0).
  unfold drawnRayAngle. cbv zeta. rewrite Ropp_0. unfold atan2.
  destruct (Rlt_dec 0 0) as [H | _]; [lra |].
  apply normalizeRayAngle_id. lra.
Qed.

(** ** The scan against the drawn layout, in any arithmetic *)

Section ScanAndLayout.

Context {num : Type} {A : Arith num}.
Variable sd : SectorData num.
Variable r : num.

(** The loop returns the prize of the sector at which the instrumented
    loop stops, and 0 when that one falls through. *)
Lemma sectorLoop_index (n i : nat) (a : num) :
  sectorLoop sd r n i a =
  match sectorLoopIndex sd r n i a with
  | Some j => prizeOf (jsIndex (assignments sd) j)
  | None => JsNumber 0
  end.
Proof.
  revert i a. induction n as [| n IH]; intros i a; simpl; [reflexivity |].
  destruct (weights sd !! i) as [w |]; [| reflexivity].
  destruct (ngeb r a && nltb r _); [reflexivity | apply IH].
Qed.

Lemma sectorPrizeAt_index :
  sectorPrizeAt sd r =
  match sectorIndexAt sd r with
  | Some j => prizeOf (jsIndex (assignments sd) j)
  | None => JsNumber 0
  end.
Proof. apply sectorLoop_index. Qed.

(** Where the scan stops, the drawn sector with that index passes the
    half-open test, and no drawn sector before it does. *)
Lemma sectorLoopIndex_Some (cx cy rad : num) (n i : nat) (a : num) (j : nat) :
  sectorLoopIndex sd r n i a = Some j ->
  exists s,
    (i <= j)%nat /\
    fst (layoutLoop sd cx cy rad n i a) !! (j - i)%nat = Some s /\
    holdsAngle s r = true /\
    color s = jsIndex (assignments sd) j /\
    (forall k s', (k < j - i)%nat ->
       fst (layoutLoop sd cx cy rad n i a) !! k = Some s' ->
       holdsAngle s' r = false).
Proof.
  revert i a. induction n as [| n IH]; intros i a; simpl; [discriminate |].
  destruct (weights sd !! i) as [w |]; [| discriminate].
  destruct (ngeb r a && nltb r _) eqn:E.
  - intros [= <-]. rewrite Nat.sub_diag.
    destruct (layoutLoop sd cx cy rad n (S i) _) as [s1 c1]. simpl.
    eexists. split; [lia |]. split; [reflexivity |].
    split; [exact E |]. split; [reflexivity |]. intros k s' Hk. lia.
  - intros Hj.
    destruct (IH (S i) _ Hj) as (s & Hij & Hs & Hin & Hc & Hbefore).
    destruct (layoutLoop sd cx cy rad n (S i) _) as [s1 c1]. simpl in *.
    exists s. split; [lia |].
    replace (j - i)%nat with (S (j - S i)) by lia. simpl.
    split; [exact Hs |]. split; [exact Hin |]. split; [exact Hc |].
    intros [| k] s' Hk; simpl.
    + intros [= <-]. exact E.
    + apply Hbefore. lia.
Qed.

(** When the scan falls through, no drawn sector passes the test. *)
Lemma sectorLoopIndex_None (cx cy rad : num) (n i : nat) (a : num) :
  sectorLoopIndex sd r n i a = None ->
  forall k s,
    fst (layoutLoop sd cx cy rad n i a) !! k = Some s ->
    holdsAngle s r = false.
Proof.
  revert i a. induction n as [| n IH]; intros i a; simpl.
  - intros _ k s Hs. rewrite lookup_nil in Hs. discriminate.
  - destruct (weights sd !! i) as [w |].
    + destruct (ngeb r a && nltb r _) eqn:E; [discriminate |].
      intros Hn k s. specialize (IH (S i) _ Hn).
      destruct (layoutLoop sd cx cy rad n (S i) _) as [s1 c1]. simpl in *.
      destruct k as [| k]; simpl.
      * intros [= <-]. exact E.
      * apply IH.
    + intros _ k s Hs. simpl in Hs. rewrite lookup_nil in Hs. discriminate.
Qed.

Lemma sectorIndexAt_Some (j : nat) :
  sectorIndexAt sd r = Some j ->
  exists s,
    sectorAngles sd !! j = Some s /\ holdsAngle s r = true /\
    color s = jsIndex (assignments sd) j /\
    (forall k s', (k < j)%nat -> sectorAngles sd !! k = Some s' ->
       holdsAngle s' r = false).
Proof.
  intros Hj.
  destruct (sectorLoopIndex_Some (fromZ 0) (fromZ 0) (fromZ 0) _ _ _ _ Hj)
    as (s & _ & Hs & Hin & Hc & Hbefore).
  rewrite Nat.sub_0_r in Hs, Hbefore. exists s. auto.
Qed.

Lemma sectorIndexAt_None :
  sectorIndexAt sd r = None ->
  forall k s, sectorAngles sd !! k = Some s -> holdsAngle s r = false.
Proof.
  intros Hn.
  exact (sectorLoopIndex_None (fromZ 0) (fromZ 0) (fromZ 0) _ _ _ Hn).
Qed.

(** When no drawn sector passes the test, the scan falls through and the
    prize is the final [return 0]. *)
Lemma sectorIndexAt_no_match :
  (forall k s, sectorAngles sd !! k = Some s -> holdsAngle s r = false) ->
  sectorIndexAt sd r = None /\ sectorPrizeAt sd r = JsNumber 0.
Proof.
  intros Hnone.
  assert (E : sectorIndexAt sd r = None).
  { destruct (sectorIndexAt sd r) as [j |] eqn:E; [| reflexivity].
    destruct (sectorIndexAt_Some j E) as (s & Hs & Hin & _).
    rewrite (Hnone j s Hs) in Hin. discriminate. }
  split; [exact E |]. rewrite sectorPrizeAt_index, E. reflexivity.
Qed.

(** The entries of [sectorAngles] do not depend on the pixel geometry. *)
Lemma layoutLoop_geometry (cx cy rad cx' cy' rad' : num)
    (n i : nat) (a : num) :
  fst (layoutLoop sd cx cy rad n i a) = fst (layoutLoop sd cx' cy' rad' n i a).
Proof.
  revert i a. induction n as [| n IH]; intros i a; simpl; [reflexivity |].
  destruct (weights sd !! i) as [w |]; [| reflexivity].
  match goal with
  | |- context [layoutLoop sd cx cy rad n (S i) ?b] => specialize (IH (S i) b)
  end.
  destruct (layoutLoop sd cx cy rad n (S i) _) as [s1 c1].
  destruct (layoutLoop sd cx' cy' rad' n (S i) _) as [s2 c2].
  simpl in *. congruence.
Qed.

End ScanAndLayout.

(** A look-up in a list all of whose entries pass a boolean test. *)
Lemma forallb_lookup {X : Type} (f : X -> bool) (l : list X) (i : nat)
    (x : X) :
  forallb f l = true -> l !! i = Some x -> f x = true.
Proof.
  intros Hall Hx. rewrite forallb_forall in Hall. apply Hall.
  apply list_elem_of_In. eapply list_elem_of_lookup_2. exact Hx.
Qed.

(** ** The half-open test on the reals *)

Lemma Rgeb_true (a b : R) : Rgeb a b = true <-> a >= b.
Proof. unfold Rgeb. destruct (Rge_dec a b); split; auto; discriminate. Qed.

Lemma Rltb_true (a b : R) : Rltb a b = true <-> a < b.
Proof. unfold Rltb. destruct (Rlt_dec a b); split; auto; discriminate. Qed.

Lemma inRange_true (r lo hi : R) :
  Rgeb r lo && Rltb r hi = true <-> lo <= r < hi.
Proof.
  rewrite andb_true_iff, Rgeb_true, Rltb_true. split; intros []; split; lra.
Qed.

Lemma inRange_false (r lo hi : R) :
  Rgeb r lo && Rltb r hi = false <-> ~ lo <= r < hi.
Proof.
  rewrite <- inRange_true. destruct (Rgeb r lo && Rltb r hi); split; intros H;
    try reflexivity; try discriminate; try (intros ?; discriminate).
  exfalso; apply H; reflexivity.
Qed.

Lemma holdsAngle_true (s : SectorAngle R) (r : R) :
  holdsAngle s r = true <-> inSector s r.
Proof. apply inRange_true. Qed.

Lemma holdsAngle_false (s : SectorAngle R) (r : R) :
  holdsAngle s r = false <-> ~ inSector s r.
Proof. apply inRange_false. Qed.

(** The values of a random source on the reals lie in [0, 1). *)
Lemma nextRandom_unit (rs : RandomSource R) (k : nat) :
  0 <= nextRandom rs k < 1.
Proof.
  destruct (nextRandom_range rs k) as [Hge Hlt]. simpl in Hge, Hlt.
  apply Rgeb_true in Hge. apply Rltb_true in Hlt. lra.
Qed.

(** ** Sums and boundaries, on the reals *)

Lemma sumR_app (l k : list R) : sumR (l ++ k) = sumR l + sumR k.
Proof. induction l as [| x l IH]; simpl; [lra | rewrite IH; lra]. Qed.

Lemma fold_left_Rplus (l : list R) (a : R) :
  fold_left Rplus l a = a + sumR l.
Proof.
  revert a. induction l as [| x l IH]; intros a; simpl; [lra |].
  rewrite IH. lra.
Qed.

Lemma sumR_pos (l : list R) :
  Forall (fun w => 0 < w) l -> l <> [] -> 0 < sumR l.
Proof.
  induction 1 as [| x l Hx Hl IH]; intros Hne; [congruence |].
  simpl. destruct l as [| y l]; [simpl; lra |].
  assert (0 < sumR (y :: l)) by (apply IH; discriminate). lra.
Qed.

Section WellFormedWheel.

Variable sd : SectorData R.
Hypothesis Hwf : WellFormed sd.

Lemma totalWeight_pos : 0 < totalWeight sd.
Proof.
  destruct Hwf as [Hlen Hpos Htot Hne]. rewrite Htot.
  apply sumR_pos; [exact Hpos |].
  intros E. rewrite E in Hlen. simpl in Hlen. lia.
Qed.

Lemma weight_lookup (i : nat) :
  (i < totalSectors sd)%nat -> exists w, weights sd !! i = Some w /\ 0 < w.
Proof.
  intros Hi. destruct Hwf as [Hlen Hpos _ _].
  destruct (lookup_lt_is_Some_2 (weights sd) i) as [w Hw]; [lia |].
  exists w. split; [exact Hw |].
  rewrite Forall_lookup in Hpos. exact (Hpos i w Hw).
Qed.

Lemma boundary_first : boundary sd 0 = - PI / 2.
Proof. unfold boundary. simpl. unfold Rdiv. ring. Qed.

Lemma boundary_step (i : nat) (w : R) :
  weights sd !! i = Some w ->
  boundary sd (S i) = boundary sd i + w / totalWeight sd * 2 * PI.
Proof.
  intros Hw. unfold boundary. rewrite (take_S_r _ _ _ Hw), sumR_app.
  simpl. unfold Rdiv. ring.
Qed.

Lemma boundary_last : boundary sd (totalSectors sd) = 3 * PI / 2.
Proof.
  pose proof totalWeight_pos as Hpos.
  unfold boundary. rewrite take_ge by (rewrite (wf_length sd Hwf); lia).
  rewrite <- (wf_total sd Hwf). field. lra.
Qed.

Lemma boundary_lt_next (i : nat) :
  (i < totalSectors sd)%nat -> boundary sd i < boundary sd (S i).
Proof.
  intros Hi. destruct (weight_lookup i Hi) as (w & Hw & Hpos).
  rewrite (boundary_step i w Hw).
  pose proof totalWeight_pos as HT. assert (Hpi := PI_RGT_0).
  assert (0 < w / totalWeight sd) by (apply Rdiv_lt_0_compat; lra).
  nra.
Qed.

Lemma boundary_mono (i j : nat) :
  (i <= j <= totalSectors sd)%nat -> boundary sd i <= boundary sd j.
Proof.
  intros [Hij Hj]. induction Hij as [| j Hij IH]; [lra |].
  pose proof (boundary_lt_next j ltac:(lia)).
  assert (boundary sd i <= boundary sd j) by (apply IH; lia). lra.
Qed.

(** Two sectors whose half-open ranges share an angle are the same. *)
Lemma boundary_unique (r : R) (i j : nat) :
  (i < totalSectors sd)%nat -> (j < totalSectors sd)%nat ->
  boundary sd i <= r < boundary sd (S i) ->
  boundary sd j <= r < boundary sd (S j) ->
  i = j.
Proof.
  intros Hi Hj Hri Hrj.
  destruct (Nat.lt_trichotomy i j) as [Hlt | [Heq | Hgt]]; [| exact Heq |].
  - pose proof (boundary_mono (S i) j ltac:(lia)). lra.
  - pose proof (boundary_mono (S j) i ltac:(lia)). lra.
Qed.

(** Without rounding: from index [i] with the running angle at its
    boundary, the loop stops at the sector whose range holds [r]. *)
Lemma sectorLoopIndex_hit (r : R) (n i : nat) :
  (i + n = totalSectors sd)%nat ->
  boundary sd i <= r < boundary sd (totalSectors sd) ->
  exists j,
    sectorLoopIndex sd r n i (boundary sd i) = Some j /\
    (i <= j < totalSectors sd)%nat /\
    boundary sd j <= r < boundary sd (S j).
Proof.
  revert i. induction n as [| n IH]; intros i Hin Hr.
  - replace i with (totalSectors sd) in Hr by lia. lra.
  - destruct (weight_lookup i ltac:(lia)) as (w & Hw & _).
    simpl. rewrite Hw, <- (boundary_step i w Hw).
    destruct (Rlt_dec r (boundary sd (S i))) as [Hlt | Hge].
    + assert (E : Rgeb r (boundary sd i) && Rltb r (boundary sd (S i)) = true)
        by (apply inRange_true; lra).
      rewrite E. exists i. repeat split; try lia; lra.
    + assert (E : Rgeb r (boundary sd i) && Rltb r (boundary sd (S i)) = false)
        by (apply inRange_false; lra).
      rewrite E.
      destruct (IH (S i) ltac:(lia) ltac:(lra)) as (j & Hj & Hij & Hrj).
      exists j. repeat split; try lia; try lra. exact Hj.
Qed.

(** Without rounding, every angle of [-PI/2, 3PI/2) is resolved to the one
    sector whose half-open range holds it. *)
Lemma sectorIndexAt_hit (r : R) :
  - PI / 2 <= r < 3 * PI / 2 ->
  exists j,
    sectorIndexAt sd r = Some j /\
    (j < totalSectors sd)%nat /\
    boundary sd j <= r < boundary sd (S j).
Proof.
  intros Hr.
  change (sectorIndexAt sd r)
    with (sectorLoopIndex sd r (totalSectors sd) 0 (- PI / 2)).
  rewrite <- boundary_first.
  destruct (sectorLoopIndex_hit r (totalSectors sd) 0 ltac:(lia))
    as (j & Hj & Hij & Hrj).
  - rewrite boundary_first, boundary_last. exact Hr.
  - exists j. repeat split; try lia; try lra. exact Hj.
Qed.

End WellFormedWheel.

(** ** The layout drawn by [drawBackground], on the reals *)

Section LayoutOfWellFormedWheel.

Variable sd : SectorData R.
Hypothesis Hwf : WellFormed sd.

Lemma layoutLoop_length (cx cy rad : R) (n i : nat) (a : R) :
  (i + n = totalSectors sd)%nat ->
  length (fst (layoutLoop sd cx cy rad n i a)) = n.
Proof.
  revert i a. induction n as [| n IH]; intros i a Hin; [reflexivity |].
  destruct (weight_lookup sd Hwf i ltac:(lia)) as (w & Hw & _).
  simpl. rewrite Hw.
  specialize (IH (S i) (a + w / totalWeight sd * 2 * PI) ltac:(lia)).
  destruct (layoutLoop sd cx cy rad n (S i) _) as [s1 c1].
  simpl in *. congruence.
Qed.

Lemma layoutLoop_lookup (cx cy rad : R) (n i k : nat) (w : R) :
  (i + n = totalSectors sd)%nat -> (k < n)%nat ->
  weights sd !! (i + k)%nat = Some w ->
  fst (layoutLoop sd cx cy rad n i (boundary sd i)) !! k =
  Some (mkSectorAngle (boundary sd (i + k))
          (boundary sd (i + k) + w / totalWeight sd * 2 * PI)
          (boundary sd (i + k) + w / totalWeight sd * 2 * PI / 2)
          (jsIndex (assignments sd) (i + k))).
Proof.
  revert i k. induction n as [| n IH]; intros i k Hin Hk Hw; [lia |].
  destruct (weight_lookup sd Hwf i ltac:(lia)) as (wi & Hwi & _).
  simpl. rewrite Hwi.
  rewrite <- (boundary_step sd i wi Hwi).
  destruct k as [| k].
  - rewrite Nat.add_0_r in *. rewrite Hwi in Hw. injection Hw as <-.
    destruct (layoutLoop sd cx cy rad n (S i) _) as [s1 c1]. simpl.
    rewrite (boundary_step sd i wi Hwi). reflexivity.
  - specialize (IH (S i) k ltac:(lia) ltac:(lia)).
    replace (S i + k)%nat with (i + S k)%nat in IH by lia.
    specialize (IH Hw).
    destruct (layoutLoop sd cx cy rad n (S i) _) as [s1 c1]. simpl in *.
    exact IH.
Qed.

Lemma sectorAngles_length : length (sectorAngles sd) = totalSectors sd.
Proof. apply layoutLoop_length. lia. Qed.

Lemma sectorAngles_lookup (i : nat) (w : R) :
  weights sd !! i = Some w ->
  sectorAngles sd !! i =
  Some (mkSectorAngle (boundary sd i)
          (boundary sd i + w / totalWeight sd * 2 * PI)
          (boundary sd i + w / totalWeight sd * 2 * PI / 2)
          (jsIndex (assignments sd) i)).
Proof.
  intros Hw.
  change (sectorAngles sd)
    with (fst (layoutLoop sd 0 0 0 (totalSectors sd) 0 (- PI / 2))).
  rewrite <- (boundary_first sd).
  assert (Hi : (i < totalSectors sd)%nat).
  { rewrite <- (wf_length sd Hwf). eapply lookup_lt_Some; exact Hw. }
  exact (layoutLoop_lookup 0 0 0 (totalSectors sd) 0 i w
           ltac:(lia) Hi Hw).
Qed.

(** The entry for sector [i] spans from its boundary to the next one. *)
Lemma sectorAngles_bounds (i : nat) (s : SectorAngle R) :
  sectorAngles sd !! i = Some s ->
  (i < totalSectors sd)%nat /\
  startAngle s = boundary sd i /\ endAngle s = boundary sd (S i) /\
  color s = jsIndex (assignments sd) i.
Proof.
  intros Hs.
  assert (Hi : (i < totalSectors sd)%nat).
  { rewrite <- sectorAngles_length. eapply lookup_lt_Some; exact Hs. }
  destruct (weight_lookup sd Hwf i Hi) as (w & Hw & _).
  rewrite (sectorAngles_lookup i w Hw) in Hs. injection Hs as <-.
  simpl. rewrite (boundary_step sd i w Hw). auto.
Qed.

(** The spans laid out from index [i] on add up to what is left of the
    turn. *)
Lemma spans_sum_from (n i : nat) :
  (i + n = totalSectors sd)%nat ->
  sumR ((fun s => endAngle s - startAngle s)
          <$> drop i (sectorAngles sd))
  = boundary sd (totalSectors sd) - boundary sd i.
Proof.
  revert i. induction n as [| n IH]; intros i Hin.
  - rewrite drop_ge by (rewrite sectorAngles_length; lia).
    replace i with (totalSectors sd) by lia. simpl. lra.
  - destruct (lookup_lt_is_Some_2 (sectorAngles sd) i) as [s Hs];
      [rewrite sectorAngles_length; lia |].
    rewrite (drop_S _ _ _ Hs), fmap_cons.
    change (sumR (?x :: ?l)) with (x + sumR l).
    rewrite (IH (S i)) by lia.
    destruct (sectorAngles_bounds i s Hs) as (_ & -> & -> & _). lra.
Qed.

Lemma spans_sum :
  sumR ((fun s => endAngle s - startAngle s) <$> sectorAngles sd)
  = 2 * PI.
Proof.
  pose proof (spans_sum_from (totalSectors sd) 0 ltac:(lia)) as H.
  rewrite drop_0 in H. rewrite H, boundary_first, boundary_last by assumption.
  lra.
Qed.

End LayoutOfWellFormedWheel.

(** ** The generator, on the reals *)

(** [Math.floor(Math.random() * n)] is an index below [n], on the reals. *)
Lemma floorIndex_lt (u : R) (n : nat) :
  0 <= u < 1 -> (0 < n)%nat ->
  (floorIndex (u * IZR (Z.of_nat n))%R < n)%nat.
Proof.
  intros [Hlo Hhi] Hn. simpl. unfold floor.
  assert (HN : 0 < IZR (Z.of_nat n)) by (apply IZR_lt; lia).
  destruct (base_Int_part (u * IZR (Z.of_nat n))) as [Hle Hgt].
  assert (Hz : (Int_part (u * IZR (Z.of_nat n)) < Z.of_nat n)%Z).
  { apply lt_IZR. nra. }
  assert (Hz0 : (0 <= Int_part (u * IZR (Z.of_nat n)))%Z).
  { apply Z.lt_succ_r. apply lt_IZR. rewrite succ_IZR. simpl. nra. }
  lia.
Qed.

Lemma swapEntries_length (a : list Label) (i j : nat) :
  length (swapEntries a i j) = length a.
Proof. unfold swapEntries. rewrite !length_insert. reflexivity. Qed.

(** Swapping two entries inside the array rearranges it. *)
Lemma swapEntries_Permutation (a : list Label) (i j : nat) :
  (i < length a)%nat -> (j < length a)%nat -> swapEntries a i j ≡ₚ a.
Proof.
  intros Hi Hj. unfold swapEntries, jsIndex, Label in *.
  destruct (lookup_lt_is_Some_2 a i Hi) as [x Hx].
  destruct (lookup_lt_is_Some_2 a j Hj) as [y Hy].
  rewrite Hx, Hy. simpl. apply Permutation_insert_swap; assumption.
Qed.

Section GeneratorFacts.

Variable rs : RandomSource R.
Variable colors : list string.

Lemma fillAssignments_app (n : nat) (a : list Label) (k : nat) :
  exists t,
    fst (fillAssignments rs colors n a k) = a ++ t /\ length t = n /\
    snd (fillAssignments rs colors n a k) = (k + n)%nat.
Proof.
  revert a k. induction n as [| n IH]; intros a k.
  - exists []. simpl. rewrite app_nil_r. auto with lia.
  - simpl. unfold bindRand at 1. unfold randomColor, bindRand, random, retRand.
    match goal with
    | |- context [fillAssignments rs colors n (a ++ [?c]) (S k)] =>
        pose (c0 := c);
        destruct (IH (a ++ [c0]) (S k)) as (t & Ht & Hlen & Hk);
        exists (c0 :: t)
    end.
    split; [| split].
    + transitivity ((a ++ [c0]) ++ t); [exact Ht |].
      rewrite <- app_assoc. reflexivity.
    + simpl. lia.
    + transitivity (S k + n)%nat; [exact Hk | lia].
Qed.

Lemma shuffleLoop_step (i : nat) (a : list Label) (k : nat) :
  shuffleLoop rs (S i) a k =
  shuffleLoop rs i
    (swapEntries a (S i)
       (floorIndex (nextRandom rs k * IZR (Z.of_nat (S i + 1)))))
    (S k).
Proof. reflexivity. Qed.

Lemma shuffleLoop_Permutation (i : nat) (a : list Label) (k : nat) :
  (i < length a)%nat -> fst (shuffleLoop rs i a k) ≡ₚ a.
Proof.
  revert a k. induction i as [| i IH]; intros a k Hi; [reflexivity |].
  rewrite shuffleLoop_step.
  rewrite IH by (rewrite swapEntries_length; lia).
  apply swapEntries_Permutation; [exact Hi |].
  pose proof (floorIndex_lt (nextRandom rs k) (S i + 1)
                (nextRandom_unit rs k) ltac:(lia)).
  lia.
Qed.

Lemma shuffle_Permutation (a : list Label) (k : nat) :
  fst (shuffleLoop rs (length a - 1) a k) ≡ₚ a.
Proof.
  destruct a as [| c a]; [reflexivity |].
  apply shuffleLoop_Permutation. simpl. lia.
Qed.

Lemma drawWeights_spec (n k : nat) :
  length (fst (drawWeights rs n k)) = n /\
  Forall (fun w => 0.4 <= w < 1.2) (fst (drawWeights rs n k)).
Proof.
  revert k. induction n as [| n IH]; intros k; simpl.
  - split; [reflexivity | constructor].
  - unfold bindRand, random, retRand.
    destruct (IH (S k)) as [Hlen Hall].
    destruct (drawWeights rs n (S k)) as [ws k']. simpl in *.
    split; [congruence |].
    constructor; [| exact Hall].
    pose proof (nextRandom_unit rs k). unfold dec. simpl. lra.
Qed.

(** The assignments of a generated wheel: a rearrangement of the palette
    followed by the random picks. *)
Lemma generateSectorData_assignments (n k : nat) :
  exists t,
    assignments (fst (generateSectorData rs colors n k))
      ≡ₚ (Some <$> colors) ++ t /\
    length t = (n - length colors)%nat /\
    fst (seedAssignments rs colors n k) = (Some <$> colors) ++ t.
Proof.
  unfold generateSectorData, seedAssignments, bindRand.
  destruct (fillAssignments_app (n - length (Some <$> colors))
              (Some <$> colors) k) as (t & Ht & Hlen & _).
  destruct (fillAssignments rs colors _ _ k) as [a1 k1]. simpl in Ht.
  pose proof (shuffle_Permutation a1 k1) as Hp.
  destruct (shuffleLoop rs (length a1 - 1) a1 k1) as [a2 k2].
  destruct (drawWeights rs n k2) as [ws k3]. simpl in *.
  exists t. rewrite length_fmap in Hlen. split; [| auto].
  rewrite <- Ht. exact Hp.
Qed.

Lemma generateSectorData_weights (n k : nat) :
  let sd := fst (generateSectorData rs colors n k) in
  totalSectors sd = n /\
  length (weights sd) = n /\
  Forall (fun w => 0.4 <= w < 1.2) (weights sd) /\
  totalWeight sd = sumR (weights sd).
Proof.
  unfold generateSectorData, bindRand.
  destruct (seedAssignments rs colors n k) as [a1 k1].
  destruct (shuffleLoop rs (length a1 - 1) a1 k1) as [a2 k2].
  pose proof (drawWeights_spec n k2) as [Hlen Hall].
  destruct (drawWeights rs n k2) as [ws k3]. simpl in *.
  repeat split; try assumption.
  rewrite fold_left_Rplus. lra.
Qed.

End GeneratorFacts.

(** A generated wheel is well formed, and no sector takes more than 0.15
    of the turn. *)
Lemma generatedWheel_WellFormed (rs : RandomSource R) :
  WellFormed (generatedWheel rs).
Proof.
  destruct (generateSectorData_weights rs palette 20 0)
    as (HN & Hlen & Hall & Htot).
  fold (generatedWheel rs) in *.
  constructor.
  - congruence.
  - eapply Forall_impl; [exact Hall |]. simpl. intros w Hw. lra.
  - exact Htot.
  - rewrite HN. lia.
Qed.

Lemma generatedWheel_totalSectors (rs : RandomSource R) :
  totalSectors (generatedWheel rs) = 20%nat.
Proof. apply (generateSectorData_weights rs palette 20 0). Qed.

Lemma sumR_lower (l : list R) (c : R) :
  Forall (fun w => c <= w) l -> INR (length l) * c <= sumR l.
Proof.
  induction 1 as [| x l Hx Hl IH]; [simpl; lra |].
  rewrite length_cons, S_INR. simpl. lra.
Qed.

Lemma generatedWheel_span_small (rs : RandomSource R) (i : nat) (w : R) :
  weights (generatedWheel rs) !! i = Some w ->
  0 < w / totalWeight (generatedWheel rs) * 2 * PI < PI / 2.
Proof.
  intros Hw.
  destruct (generateSectorData_weights rs palette 20 0)
    as (HN & Hlen & Hall & Htot).
  fold (generatedWheel rs) in *.
  assert (Hwr : 0.4 <= w < 1.2).
  { rewrite Forall_lookup in Hall. exact (Hall i w Hw). }
  assert (HT : 8 <= totalWeight (generatedWheel rs)).
  { rewrite Htot.
    pose proof (sumR_lower (weights (generatedWheel rs)) 0.4) as H.
    rewrite Hlen in H.
    replace (INR 20) with 20 in H by (simpl; lra).
    assert (Forall (fun w => 0.4 <= w) (weights (generatedWheel rs))).
    { eapply Forall_impl; [exact Hall |]. simpl. intros; lra. }
    specialize (H H0). lra. }
  assert (Hpi := PI_RGT_0).
  assert (Hq : 0 < w / totalWeight (generatedWheel rs) < 0.15).
  { split.
    - apply Rdiv_lt_0_compat; lra.
    - assert (E : w / totalWeight (generatedWheel rs)
                    * totalWeight (generatedWheel rs) = w) by (field; lra).
      nra. }
  nra.
Qed.


(** ** The labels of a generated wheel, in any arithmetic *)

Section GeneratedLabels.

Context {num : Type} {A : Arith num}.
Variable rs : RandomSource num.
Variable colors : list string.

Lemma jsIndex_paletteLabel (a : list Label) (i : nat) :
  Forall (paletteLabel colors) a -> paletteLabel colors (jsIndex a i).
Proof.
  intros Ha s Hs. unfold jsIndex, Label in *.
  destruct (a !! i) as [c |] eqn:E; cbn in Hs; [| discriminate].
  subst c. rewrite Forall_lookup in Ha.
  exact (Ha i (Some s) E s eq_refl).
Qed.

Lemma fillAssignments_labels (n : nat) (a : list Label) (k : nat) :
  Forall (paletteLabel colors) a ->
  Forall (paletteLabel colors) (fst (fillAssignments rs colors n a k)).
Proof.
  revert a k. induction n as [| n IH]; intros a k Ha; [exact Ha |].
  simpl. unfold bindRand at 1. unfold randomColor, bindRand, random, retRand.
  apply IH. apply Forall_app. split; [exact Ha |].
  constructor; [| constructor].
  intros s Hs. eapply list_elem_of_lookup_2. exact Hs.
Qed.

Lemma shuffleLoop_labels (i : nat) (a : list Label) (k : nat) :
  Forall (paletteLabel colors) a ->
  Forall (paletteLabel colors) (fst (shuffleLoop rs i a k)).
Proof.
  revert a k. induction i as [| i IH]; intros a k Ha; [exact Ha |].
  change (shuffleLoop rs (S i) a k)
    with (shuffleLoop rs i
            (swapEntries a (S i)
               (floorIndex (nextRandom rs k * fromZ (Z.of_nat (S i + 1)))%num))
            (S k)).
  apply IH. unfold swapEntries.
  apply Forall_insert; [apply Forall_insert |];
    try exact Ha; apply jsIndex_paletteLabel; exact Ha.
Qed.

Lemma generateSectorData_labels (n k : nat) :
  Forall (paletteLabel colors)
    (assignments (fst (generateSectorData rs colors n k))).
Proof.
  unfold generateSectorData, seedAssignments, bindRand.
  pose proof (fillAssignments_labels (n - length (Some <$> colors))
                (Some <$> colors) k) as Hfill.
  destruct (fillAssignments rs colors _ _ k) as [a1 k1]. simpl in Hfill.
  pose proof (shuffleLoop_labels (length a1 - 1) a1 k1) as Hshuffle.
  destruct (shuffleLoop rs (length a1 - 1) a1 k1) as [a2 k2].
  destruct (drawWeights rs n k2) as [ws k3]. simpl in *.
  apply Hshuffle, Hfill.
  apply Forall_fmap, Forall_forall. intros c Hc s [= <-]. exact Hc.
Qed.

End GeneratedLabels.


(** On the reals, for a well-formed wheel and an angle of [-PI/2, 3PI/2):
    the scan stops at the one drawn sector that holds the angle and returns
    its prize.  Rounding can break this; see [wheel64] at [seamAngle]. *)
Lemma resolve_WellFormed (sd : SectorData R) (r : R) :
  WellFormed sd -> - PI / 2 <= r < 3 * PI / 2 ->
  exists i s,
    sectorIndexAt sd r = Some i /\
    sectorAngles sd !! i = Some s /\
    inSector s r /\
    (forall j s', sectorAngles sd !! j = Some s' -> inSector s' r -> j = i) /\
    sectorPrizeAt sd r = prizeOf (color s).
Proof.
  intros Hwf Hr.
  destruct (sectorIndexAt_hit sd Hwf r Hr) as (i & Hi & HiN & Hri).
  destruct (sectorIndexAt_Some sd r i Hi) as (s & Hs & Hin & Hc & _).
  apply holdsAngle_true in Hin.
  exists i, s. repeat split; try assumption; try apply Hin.
  - intros j s' Hs' Hin'.
    destruct (sectorAngles_bounds sd Hwf j s' Hs') as (HjN & Hst & Hen & _).
    unfold inSector in Hin'. rewrite Hst, Hen in Hin'.
    exact (boundary_unique sd Hwf r j i HjN HiN Hin' Hri).
  - rewrite sectorPrizeAt_index, Hi, Hc. reflexivity.
Qed.

(** ** The prize table *)

Lemma prizeValues_lookup (k : string) (v : Z) :
  prizeValues !! k = Some v ->
  v ∈ [100%Z; 50%Z; 20%Z; 10%Z; 5%Z; 1%Z].
Proof.
  intros H. apply elem_of_list_to_map_2 in H.
  repeat (apply elem_of_cons in H as [Heq | H];
          [injection Heq as _ ->; rewrite !elem_of_cons; tauto |]).
  apply elem_of_nil in H. contradiction.
Qed.

Lemma prizeValues_positive (k : string) (v : Z) :
  prizeValues !! k = Some v -> (0 < v)%Z.
Proof.
  intros H. apply prizeValues_lookup in H.
  repeat (apply elem_of_cons in H as [-> | H]; [lia |]).
  apply elem_of_nil in H. contradiction.
Qed.

(** The keys of the table are the colours of the palette. *)
Lemma prizeValues_palette (c : string) :
  c ∈ palette -> exists v, prizeValues !! c = Some v.
Proof.
  unfold palette. intros H.
  repeat (apply elem_of_cons in H as [-> | H]; [eexists; reflexivity |]).
  apply elem_of_nil in H. contradiction.
Qed.

(** No member of [Object.prototype] is shadowed by a key of the table. *)
Lemma prizeValues_inherited (k : string) :
  k ∈ objectPrototypeKeys -> prizeValues !! k = None.
Proof.
  unfold objectPrototypeKeys. intros H.
  repeat (apply elem_of_cons in H as [-> | H]; [reflexivity |]).
  apply elem_of_nil in H. contradiction.
Qed.

(** A label naming an inherited member reads that member. *)
Lemma prizeOf_inherited (k : string) :
  k ∈ objectPrototypeKeys -> prizeOf (Some k) = JsInherited k.
Proof.
  intros H. unfold prizeOf, getProperty. simpl.
  rewrite (prizeValues_inherited k H), bool_decide_true by exact H.
  reflexivity.
Qed.

(** Any other label reads a number: the table's, or 0 when the table has
    no such key. *)
Lemma prizeOf_plain (c : Label) :
  plainLabel c ->
  exists n,
    prizeOf c = JsNumber n /\ n ∈ prizeNumbers /\
    (n = 0%Z <-> prizeValues !! propertyKey c = None).
Proof.
  unfold plainLabel, prizeOf, getProperty, jsOr. intros Hplain.
  destruct (prizeValues !! propertyKey c) as [v |] eqn:E.
  - pose proof (prizeValues_positive _ _ E) as Hpos.
    apply prizeValues_lookup in E. simpl.
    destruct (Z.eqb_spec v 0); [lia |]. simpl.
    exists v. split; [reflexivity |]. split.
    + unfold prizeNumbers. rewrite !elem_of_cons in E.
      rewrite !elem_of_cons. tauto.
    + split; [lia | discriminate].
  - rewrite bool_decide_false by exact Hplain.
    exists 0%Z. split; [reflexivity |]. split; [| tauto].
    unfold prizeNumbers. rewrite !elem_of_cons. tauto.
Qed.

(** A colour of the palette reads its own positive prize. *)
Lemma prizeOf_palette (c : string) :
  c ∈ palette -> exists n, prizeOf (Some c) = JsNumber n /\ (0 < n)%Z.
Proof.
  intros Hc. destruct (prizeValues_palette c Hc) as [v Hv].
  pose proof (prizeValues_positive c v Hv) as Hpos.
  exists v. split; [| exact Hpos].
  unfold prizeOf, getProperty. simpl. rewrite Hv. simpl.
  destruct (Z.eqb_spec v 0); [lia | reflexivity].
Qed.

(** A label read from the palette, or [undefined], names no inherited
    member. *)
Lemma palette_plainLabel (c : Label) :
  paletteLabel palette c -> plainLabel c.
Proof.
  intros Hc. unfold plainLabel. destruct c as [s |]; simpl.
  - specialize (Hc s eq_refl). unfold palette in Hc.
    repeat (apply elem_of_cons in Hc as [-> | Hc];
            [not_inherited |]).
    apply elem_of_nil in Hc. contradiction.
  - not_inherited.
Qed.

(** The labels read by the scan of a wheel whose assignments are plain. *)
Lemma jsIndex_plainLabel (a : list Label) (i : nat) :
  Forall plainLabel a -> plainLabel (jsIndex a i).
Proof.
  intros Ha. unfold jsIndex, Label in *.
  destruct (a !! i) as [c |] eqn:E; simpl.
  - rewrite Forall_lookup in Ha. exact (Ha i c E).
  - not_inherited.
Qed.

(** Every label of a generated wheel is plain, in any arithmetic. *)
Lemma generatedWheel_plainLabels {num : Type} {A : Arith num}
    (rs : RandomSource num) :
  Forall plainLabel (assignments (generatedWheel rs)).
Proof.
  eapply Forall_impl; [apply generateSectorData_labels |].
  intros c Hc. apply palette_plainLabel. exact Hc.
Qed.

(** ** The per-frame pipeline *)

Lemma processFace_Throw (landmarks : LandmarkSet) (p : Page) (e : Exn) :
  calculateFaceHeading landmarks = Throw e ->
  processFace landmarks p = (Throw e, p).
Proof. intros H. unfold processFace. rewrite H. reflexivity. Qed.

Lemma processFace_Ok (landmarks : LandmarkSet) (p : Page) (h : Heading.t) :
  calculateFaceHeading landmarks = Ok h ->
  fst (processFace landmarks p) = Ok tt /\
  moneyDisplay_textContent (snd (processFace landmarks p)) =
    valueToString
      (detectDrawnRaySectorPrize (sectorData p) (Heading.x h) (Heading.y h)) /\
  sectorData (snd (processFace landmarks p)) = sectorData p /\
  bgCanvas (snd (processFace landmarks p)) = bgCanvas p.
Proof. intros H. unfold processFace. rewrite H. simpl. auto. Qed.

Lemma processFace_frame (landmarks : LandmarkSet) (p : Page) :
  sectorData (snd (processFace landmarks p)) = sectorData p /\
  bgCanvas (snd (processFace landmarks p)) = bgCanvas p.
Proof.
  unfold processFace. destruct (calculateFaceHeading landmarks); simpl; auto.
Qed.

Lemma processFaces_frame (faces : list LandmarkSet) (p : Page) :
  sectorData (snd (processFaces faces p)) = sectorData p /\
  bgCanvas (snd (processFaces faces p)) = bgCanvas p.
Proof.
  revert p. induction faces as [| lm faces IH]; intros p; simpl; [auto |].
  pose proof (processFace_frame lm p) as [H1 H2].
  destruct (processFace lm p) as [[[] | e] p']; simpl in *.
  - destruct (IH p') as [H3 H4]. split; congruence.
  - auto.
Qed.

Lemma onResults_frame (window : Window) (results : Results) (p : Page) :
  sectorData (snd (onResults window results p)) = sectorData p /\
  bgCanvas (snd (onResults window results p)) = bgCanvas p.
Proof.
  unfold onResults. destruct (multiFaceLandmarks results) as [faces |].
  - match goal with
    | |- context [processFaces faces ?q] =>
        destruct (processFaces_frame faces q) as [H1 H2]
    end.
    rewrite H1, H2. simpl. auto.
  - simpl. auto.
Qed.

(** A face with a missing landmark ends the frame: the faces before it
    have been processed, it and the faces after it leave no trace. *)
Lemma processFaces_Throw (pre post : list LandmarkSet)
    (landmarks : LandmarkSet) (p : Page) (e : Exn) :
  calculateFaceHeading landmarks = Throw e ->
  fst (processFaces pre p) = Ok tt ->
  processFaces (pre ++ landmarks :: post) p =
    (Throw e, snd (processFaces pre p)).
Proof.
  intros He. revert p. induction pre as [| lm pre IH]; intros p; simpl.
  - intros _. rewrite (processFace_Throw _ _ _ He). reflexivity.
  - destruct (processFace lm p) as [[[] | e'] p']; simpl.
    + apply IH.
    + discriminate.
Qed.

(** ** The heading estimator *)

Lemma calculateFaceHeading_Ok (landmarks : LandmarkSet)
    (nose leftEar rightEar : Landmark.t) :
  jsIndex landmarks NOSE_TIP = Some nose ->
  jsIndex landmarks LEFT_EAR_TRAGION = Some leftEar ->
  jsIndex landmarks RIGHT_EAR_TRAGION = Some rightEar ->
  calculateFaceHeading landmarks =
  Ok (Heading.mk
        ((Landmark.x nose - (Landmark.x leftEar + Landmark.x rightEar) / 2)
         * sensitivity)
        ((Landmark.y nose - (Landmark.y leftEar + Landmark.y rightEar) / 2)
         * sensitivity)).
Proof.
  intros Hn Hl Hr. unfold calculateFaceHeading. rewrite Hn, Hl, Hr.
  reflexivity.
Qed.

Lemma calculateFaceHeading_Throw (landmarks : LandmarkSet) :
  jsIndex landmarks NOSE_TIP = None \/
  jsIndex landmarks LEFT_EAR_TRAGION = None \/
  jsIndex landmarks RIGHT_EAR_TRAGION = None ->
  calculateFaceHeading landmarks = Throw (TypeError "x").
Proof.
  intros H. unfold calculateFaceHeading.
  destruct (jsIndex landmarks LEFT_EAR_TRAGION) as [l |]; [| reflexivity].
  destruct (jsIndex landmarks RIGHT_EAR_TRAGION) as [r |]; [| reflexivity].
  destruct (jsIndex landmarks NOSE_TIP) as [n |]; [| reflexivity].
  destruct H as [H | [H | H]]; discriminate.
Qed.

(** ** The drawn ray of a heading along the x axis *)

(** A heading pointing along positive x mirrors to negative x: angle PI. *)
Lemma drawnRayAngle_positive_x (hx hy : R) :
  0 < hx -> hy = 0 -> drawnRayAngle hx hy = PI.
Proof.
  intros Hx ->. assert (Hpi := PI_RGT_0).
  unfold drawnRayAngle. cbv zeta. unfold atan2.
  destruct (Rlt_dec 0 (- hx)) as [H | _]; [lra |].
  destruct (Rlt_dec (- hx) 0) as [_ | H]; [| lra].
  destruct (Rle_dec 0 0) as [_ | H]; [| lra].
  replace (0 / - hx) with 0 by (field; lra).
  rewrite atan_0, Rplus_0_l. apply normalizeRayAngle_id. lra.
Qed.

(** A heading pointing along negative x mirrors to positive x: angle 0. *)
Lemma drawnRayAngle_negative_x (hx hy : R) :
  hx < 0 -> hy = 0 -> drawnRayAngle hx hy = 0.
Proof.
  intros Hx ->. assert (Hpi := PI_RGT_0).
  unfold drawnRayAngle. cbv zeta. unfold atan2.
  destruct (Rlt_dec 0 (- hx)) as [_ | H]; [| lra].
  replace (0 / - hx) with 0 by (field; lra).
  rewrite atan_0. apply normalizeRayAngle_id. lra.
Qed.

(** On the reals, the one sector of [namedWheel] holds the angle PI. *)
Lemma namedWheel_index (label : string) :
  sectorIndexAt (namedWheel (A:=Real) label) PI = Some 0%nat.
Proof.
  assert (Hpi := PI_RGT_0). unfold sectorIndexAt. simpl.
  assert (E : Rgeb PI (- PI / 2) && Rltb PI (- PI / 2 + 1 / 1 * 2 * PI)
              = true) by (apply inRange_true; lra).
  rewrite E. reflexivity.
Qed.

(** The heading of [turnedFace]. *)
Lemma turnedFace_heading :
  calculateFaceHeading turnedFace =
  Ok (Heading.mk ((1 - (0 + 0) / 2) * sensitivity)
                 ((0 - (0 + 0) / 2) * sensitivity)).
Proof.
  apply (calculateFaceHeading_Ok turnedFace (Landmark.mk 1 0 0)
           (Landmark.mk 0 0 0) (Landmark.mk 0 0 0)); reflexivity.
Qed.

(** A frame holding one complete face shows what the resolver returns. *)
Lemma onResults_display (window : Window) (landmarks : LandmarkSet)
    (h : Heading.t) (p : Page) :
  calculateFaceHeading landmarks = Ok h ->
  fst (onResults window (mkResults (Some [landmarks])) p) = Ok tt /\
  moneyDisplay_textContent
    (snd (onResults window (mkResults (Some [landmarks])) p)) =
  valueToString
    (detectDrawnRaySectorPrize (sectorData p) (Heading.x h) (Heading.y h)).
Proof.
  intros Hh. unfold onResults. simpl.
  match goal with
  | |- context [processFace landmarks ?q] =>
      destruct (processFace_Ok landmarks q h Hh) as (Hok & Htext & _);
      destruct (processFace landmarks q) as [res q']
  end.
  simpl in *. subst res. simpl. split; [reflexivity | exact Htext].
Qed.

(** No sector of a generated wheel reaches from the angle 0 to the angle
    PI, on the reals. *)
Lemma generatedWheel_sector_narrow (rs : RandomSource R) (i : nat)
    (s : SectorAngle R) :
  sectorAngles (generatedWheel rs) !! i = Some s ->
  inSector s PI -> ~ inSector s 0.
Proof.
  intros Hs Hin. assert (Hpi := PI_RGT_0).
  pose proof (generatedWheel_WellFormed rs) as Hwf.
  destruct (sectorAngles_bounds _ Hwf i s Hs) as (HiN & Hst & Hen & _).
  destruct (weight_lookup _ Hwf i HiN) as (w & Hw & _).
  pose proof (generatedWheel_span_small rs i w Hw) as Hspan.
  rewrite (boundary_step _ i w Hw) in Hen.
  unfold inSector in *. rewrite Hst, Hen in *. lra.
Qed.

(** * The claims *)

(** ** C1 *)

(** C1 (mirror correction).  For every heading (hx, hy): the angle the
    resolver classifies is [atan2] of the mirrored ray (-hx, hy),
    normalised; it lies in [-PI/2, 3PI/2) and is a polar angle of that ray;
    and the resolver returns what the scan returns at that angle.  In any
    arithmetic, and so in binary64: when the scan stops at index [i], the
    drawn sector [i] passes the half-open test at the angle, no drawn sector
    before it does, and the prize is read from the label of sector [i].
    The heading (1, 0) gives the angle PI, where the unmirrored (-1, 0)
    gives 0 (and a zero heading gives PI, as [Math.atan2(0, -0)] does).  No
    sector of a generated wheel that holds PI holds 0.  On the binary64
    wheel generated from draws of 0.5 the scan at [Math.PI] stops at
    sector 15, which passes the test at PI and not at 0; the scan at 0
    stops at sector 5.  On the one generated from draws of 0.25, whose
    rounded boundary between the sectors 14 and 15 lies just above
    [Math.PI], the scan at [Math.PI] stops at sector 14, of prize 10. *)
Theorem C1_mirror_correction (hx hy : R) :
  let theta := drawnRayAngle hx hy in
  let rho := sqrt (hx * hx + hy * hy) in
  (theta = normalizeRayAngle (atan2 hy (- hx)) /\
   - PI / 2 <= theta < 3 * PI / 2 /\
   - hx = rho * cos theta /\ hy = rho * sin theta) /\
  (forall sd : SectorData R,
     detectDrawnRaySectorPrize (Some sd) hx hy = sectorPrizeAt sd theta) /\
  (forall (num : Type) (A : Arith num) (sd : SectorData num)
          (rayAngle : num) (i : nat),
     sectorIndexAt sd rayAngle = Some i ->
     exists s,
       sectorAngles sd !! i = Some s /\ holdsAngle s rayAngle = true /\
       (forall j s', (j < i)%nat -> sectorAngles sd !! j = Some s' ->
                     holdsAngle s' rayAngle = false) /\
       sectorPrizeAt sd rayAngle = prizeOf (color s)) /\
  (drawnRayAngle 1 0 = PI /\ drawnRayAngle (Ropp 1) 0 = 0 /\
   drawnRayAngle 0 0 = PI) /\
  (forall (rs : RandomSource R) i s,
     sectorAngles (generatedWheel rs) !! i = Some s ->
     inSector s PI -> ~ inSector s 0) /\
  (exists s : SectorAngle float,
     sectorIndexAt wheel64 Math_PI = Some 15%nat /\
     sectorAngles wheel64 !! 15%nat = Some s /\
     holdsAngle s Math_PI = true /\ holdsAngle s (fromZ 0) = false /\
     sectorIndexAt wheel64 (fromZ 0) = Some 5%nat) /\
  (exists s : SectorAngle float,
     sectorIndexAt quarterWheel64 Math_PI = Some 14%nat /\
     sectorAngles quarterWheel64 !! 14%nat = Some s /\
     holdsAngle s Math_PI = true /\ holdsAngle s (fromZ 0) = false /\
     endAngle s = 0x1.921fb54442d1dp+1%float /\
     sectorPrizeAt quarterWheel64 Math_PI = JsNumber 10).
Proof.
  intros theta rho.
  split; [| split; [| split; [| split; [| split; [| split]]]]].
  - split; [reflexivity |].
    split; [apply drawnRayAngle_range | apply drawnRayAngle_polar].
  - intros sd. reflexivity.
  - intros num A sd rayAngle i Hi.
    destruct (sectorIndexAt_Some sd rayAngle i Hi)
      as (s & Hs & Hin & Hc & Hbefore).
    exists s. split; [exact Hs |]. split; [exact Hin |].
    split; [exact Hbefore |].
    rewrite sectorPrizeAt_index, Hi, Hc. reflexivity.
  - split; [apply drawnRayAngle_positive_x; [lra | reflexivity] |].
    split; [apply drawnRayAngle_negative_x; [lra | reflexivity] |].
    apply drawnRayAngle_origin.
  - apply generatedWheel_sector_narrow.
  - vm_compute. eexists. repeat split; reflexivity.
  - vm_compute. eexists. repeat split; reflexivity.
Qed.

(** ** C2 *)

(** C2 fails in the script's arithmetic.  On the wheel generated from draws
    of 0.5 (twenty weights of 0.8, summing to 16.000000000000004) the
    rounded end angles stop at 4.712388980384689, one step below
    [3 * Math.PI / 2].  That number is itself an angle the resolver
    classifies: the first loop turns [Math.atan2(-1, -1e-15)] into it and
    both loop conditions are false on it.  No drawn sector passes the
    half-open test there, the scan falls through and the prize is 0.  The
    boundary rule itself holds on this wheel: the start angle of every
    sector resolves to that sector. *)
Theorem C2_seam_gap :
  (totalSectors wheel64 = 20%nat /\
   weights wheel64 = replicate 20 (dec 8 10) /\
   totalWeight wheel64 = 0x1.0000000000001p+4%float) /\
  (nltb seamAtan2 (- Math_PI / fromZ 2)%num = true /\
   (seamAtan2 + fromZ 2 * Math_PI)%num = seamAngle /\
   nltb seamAngle (- Math_PI / fromZ 2)%num = false /\
   ngeb seamAngle (fromZ 3 * Math_PI / fromZ 2)%num = false) /\
  (length (sectorAngles wheel64) = 20%nat /\
   exists s, last (sectorAngles wheel64) = Some s /\ endAngle s = seamAngle) /\
  forallb (fun s => negb (holdsAngle s seamAngle)) (sectorAngles wheel64)
    = true /\
  sectorIndexAt wheel64 seamAngle = None /\
  sectorPrizeAt wheel64 seamAngle = JsNumber 0 /\
  imap (fun i s => sectorIndexAt wheel64 (startAngle s))
    (sectorAngles wheel64) = Some <$> seq 0 20.
Proof.
  split; [vm_compute; repeat split; reflexivity |].
  split; [vm_compute; repeat split; reflexivity |].
  split; [vm_compute; split; [reflexivity | eexists; split; reflexivity] |].
  vm_compute. repeat split; reflexivity.
Qed.

(** ** C3 *)

(** C3 (partition invariant).  For every generated wheel the layout has one
    entry per sector; the first starts at -PI/2; each spans
    (weight / totalWeight) * 2 PI, a positive angle, with [totalWeight] the
    sum of the weights; each ends where the next starts; the spans add up
    to 2 PI; the last ends at 3PI/2; and an angle lies in [-PI/2, 3PI/2)
    exactly when some sector holds it, in which case only one does. *)
Theorem C3_partition (rs : RandomSource R) :
  let sd := generatedWheel rs in
  let sectors := sectorAngles sd in
  length sectors = totalSectors sd /\ totalSectors sd = 20%nat /\
  totalWeight sd = sumR (weights sd) /\
  (exists s, sectors !! 0%nat = Some s /\ startAngle s = - PI / 2) /\
  (forall i s, sectors !! i = Some s ->
     exists w, weights sd !! i = Some w /\
               endAngle s - startAngle s = w / totalWeight sd * 2 * PI /\
               startAngle s < endAngle s) /\
  (forall i s s', sectors !! i = Some s -> sectors !! S i = Some s' ->
     endAngle s = startAngle s') /\
  sumR ((fun s => endAngle s - startAngle s) <$> sectors) = 2 * PI /\
  (exists s, last sectors = Some s /\ endAngle s = 3 * PI / 2) /\
  (forall r, - PI / 2 <= r < 3 * PI / 2 <->
             exists i s, sectors !! i = Some s /\ inSector s r) /\
  (forall r i j s s', sectors !! i = Some s -> sectors !! j = Some s' ->
     inSector s r -> inSector s' r -> i = j).
Proof.
  intros sd sectors.
  pose proof (generatedWheel_WellFormed rs) as Hwf. fold sd in Hwf.
  pose proof (generatedWheel_totalSectors rs) as HN. fold sd in HN.
  pose proof (sectorAngles_length sd Hwf) as Hlen. fold sectors in Hlen.
  assert (Hpi := PI_RGT_0).
  assert (Hentry : forall i s, sectors !! i = Some s ->
            exists w, weights sd !! i = Some w /\
                      s = mkSectorAngle (boundary sd i)
                            (boundary sd i + w / totalWeight sd * 2 * PI)
                            (boundary sd i + w / totalWeight sd * 2 * PI / 2)
                            (jsIndex (assignments sd) i)).
  { intros i s Hs.
    destruct (sectorAngles_bounds sd Hwf i s Hs) as (HiN & _).
    destruct (weight_lookup sd Hwf i HiN) as (w & Hw & _).
    exists w. split; [exact Hw |].
    unfold sectors in Hs. rewrite (sectorAngles_lookup sd Hwf i w Hw) in Hs.
    congruence. }
  split; [exact Hlen |]. split; [exact HN |].
  split; [exact (wf_total sd Hwf) |].
  split.
  { destruct (lookup_lt_is_Some_2 sectors 0) as [s Hs]; [lia |].
    exists s. split; [exact Hs |].
    destruct (sectorAngles_bounds sd Hwf 0 s Hs) as (_ & -> & _).
    apply boundary_first. }
  split.
  { intros i s Hs. destruct (Hentry i s Hs) as (w & Hw & ->).
    exists w. split; [exact Hw |]. simpl. split; [lra |].
    destruct (sectorAngles_bounds sd Hwf i _ Hs) as (HiN & _).
    pose proof (boundary_lt_next sd Hwf i HiN) as Hlt.
    rewrite (boundary_step sd i w Hw) in Hlt. exact Hlt. }
  split.
  { intros i s s' Hs Hs'.
    destruct (sectorAngles_bounds sd Hwf i s Hs) as (_ & _ & -> & _).
    destruct (sectorAngles_bounds sd Hwf (S i) s' Hs') as (_ & -> & _).
    reflexivity. }
  split; [apply (spans_sum sd Hwf) |].
  split.
  { destruct (lookup_lt_is_Some_2 sectors 19) as [s Hs]; [lia |].
    exists s. split.
    - rewrite last_lookup, Hlen, HN. exact Hs.
    - destruct (sectorAngles_bounds sd Hwf 19 s Hs) as (_ & _ & -> & _).
      rewrite <- (boundary_last sd Hwf), HN. reflexivity. }
  split.
  { intros r. split.
    - intros Hr.
      destruct (resolve_WellFormed sd r Hwf Hr) as (i & s & _ & Hs & Hin & _).
      exists i, s. auto.
    - intros (i & s & Hs & Hin).
      destruct (sectorAngles_bounds sd Hwf i s Hs) as (HiN & Hst & Hen & _).
      unfold inSector in Hin. rewrite Hst, Hen in Hin.
      pose proof (boundary_mono sd Hwf 0 i ltac:(lia)) as H0.
      pose proof (boundary_mono sd Hwf (S i) (totalSectors sd) ltac:(lia))
        as H1.
      rewrite boundary_first in H0 by assumption.
      rewrite boundary_last in H1 by assumption. lra. }
  intros r i j s s' Hs Hs' Hin Hin'.
  destruct (sectorAngles_bounds sd Hwf i s Hs) as (HiN & Hst & Hen & _).
  destruct (sectorAngles_bounds sd Hwf j s' Hs') as (HjN & Hst' & Hen' & _).
  unfold inSector in *. rewrite Hst, Hen in Hin. rewrite Hst', Hen' in Hin'.
  exact (boundary_unique sd Hwf r i j HiN HjN Hin Hin').
Qed.

(** ** C4 *)

(** C4 (full palette coverage).  For every palette and every target count
    [n] at least the palette's size, whatever the random draws: the
    assignments stored in the wheel are [n] labels, every palette colour is
    among them, and they are a rearrangement of the list built before the
    shuffle, which starts with one copy of each palette colour. *)
Theorem C4_palette_coverage (rs : RandomSource R) (colors : list string)
    (n k : nat) :
  (length colors <= n)%nat ->
  let sd := fst (generateSectorData rs colors n k) in
  let seeded := fst (seedAssignments rs colors n k) in
  length (assignments sd) = n /\
  (forall c, c ∈ colors -> Some c ∈ assignments sd) /\
  assignments sd ≡ₚ seeded /\
  take (length colors) seeded = Some <$> colors /\
  length seeded = n.
Proof.
  intros Hn sd seeded.
  destruct (generateSectorData_assignments rs colors n k)
    as (t & Hperm & Hlen & Hseed).
  fold sd in Hperm. fold seeded in Hseed.
  assert (Hlseed : length seeded = n).
  { rewrite Hseed, length_app, length_fmap, Hlen. lia. }
  split; [| split; [| split; [| split]]].
  - rewrite Hperm, <- Hseed. exact Hlseed.
  - intros c Hc. rewrite Hperm. apply elem_of_app. left.
    apply list_elem_of_fmap_2. exact Hc.
  - rewrite Hseed. exact Hperm.
  - rewrite Hseed. rewrite take_app_length'; [reflexivity |].
    rewrite length_fmap. reflexivity.
  - exact Hlseed.
Qed.

(** The script's own palette of six colours and twenty sectors. *)
Lemma C4_palette_coverage_witness :
  (length palette <= 20)%nat /\
  length (assignments (generatedWheel fixedSource)) = 20%nat /\
  (forall c, c ∈ palette -> Some c ∈ assignments (generatedWheel fixedSource)).
Proof.
  assert (H : (length palette <= 20)%nat) by (simpl; lia).
  split; [exact H |].
  destruct (C4_palette_coverage fixedSource palette 20 0 H)
    as (Hlen & Hin & _).
  split; [exact Hlen | exact Hin].
Defined.

(** ** C5 *)

(** C5, as claimed, fails.  On the binary64 wheel generated from draws of
    0.5, the normalised ray angle 4.712388980384689 (both loop conditions
    are false on it) passes the half-open test of no drawn sector; the
    prize returned is 0, although the last sector's prize is 10. *)
Lemma C5_no_fallback_counterexample :
  (nltb seamAngle (- Math_PI / fromZ 2)%num = false /\
   ngeb seamAngle (fromZ 3 * Math_PI / fromZ 2)%num = false) /\
  (forall i s, sectorAngles wheel64 !! i = Some s ->
               holdsAngle s seamAngle = false) /\
  sectorPrizeAt wheel64 seamAngle = JsNumber 0 /\
  (exists s, last (sectorAngles wheel64) = Some s /\
             color s = jsIndex (assignments wheel64)
                         (totalSectors wheel64 - 1) /\
             prizeOf (color s) = JsNumber 10).
Proof.
  split; [vm_compute; split; reflexivity |]. split; [| split].
  - intros i s Hs.
    apply negb_true_iff.
    apply (forallb_lookup (fun s => negb (holdsAngle s seamAngle))
             (sectorAngles wheel64) i s); [| exact Hs].
    vm_compute. reflexivity.
  - vm_compute. reflexivity.
  - vm_compute. eexists. repeat split; reflexivity.
Qed.

(** C5, amended (no fallback).  In any arithmetic, for every wheel state
    and ray angle: if no drawn sector passes the half-open test at the
    angle, the scan stops at no sector and the prize is 0.  So the resolver
    returns 0 for a heading whose normalised ray angle no sector holds. *)
Theorem C5_no_match_returns_zero {num : Type} {A : Arith num}
    (sd : SectorData num) (rayAngle : num) :
  (forall i s, sectorAngles sd !! i = Some s ->
               holdsAngle s rayAngle = false) ->
  sectorIndexAt sd rayAngle = None /\
  sectorPrizeAt sd rayAngle = JsNumber 0 /\
  detectDrawnRaySectorPrize None 0 0 = JsNumber 0 /\
  (forall (wheel : SectorData R) (hx hy : R),
     (forall i s, sectorAngles wheel !! i = Some s ->
                  ~ inSector s (drawnRayAngle hx hy)) ->
     detectDrawnRaySectorPrize (Some wheel) hx hy = JsNumber 0).
Proof.
  intros Hnone.
  destruct (sectorIndexAt_no_match sd rayAngle Hnone) as [Hi Hp].
  split; [exact Hi |]. split; [exact Hp |]. split; [reflexivity |].
  intros wheel hx hy Hout. simpl.
  apply sectorIndexAt_no_match.
  intros i s Hs. apply holdsAngle_false. exact (Hout i s Hs).
Qed.

Lemma C5_no_match_returns_zero_witness :
  sectorIndexAt wheel64 seamAngle = None /\
  sectorPrizeAt wheel64 seamAngle = JsNumber 0.
Proof.
  destruct (C5_no_match_returns_zero wheel64 seamAngle) as (Hi & Hp & _).
  - intros i s Hs.
    apply negb_true_iff.
    apply (forallb_lookup (fun s => negb (holdsAngle s seamAngle))
             (sectorAngles wheel64) i s); [| exact Hs].
    vm_compute. reflexivity.
  - split; [exact Hi | exact Hp].
Defined.

(** ** C6 *)

(** C6 (missing landmark).  For every face in which the nose tip, the left
    ear tragion or the right ear tragion is absent, the heading estimator
    raises a TypeError instead of returning a vector; a frame that starts
    with such a face ends in that exception with the prize display and the
    wheel as they were, whatever faces follow. *)
Theorem C6_missing_landmark (landmarks : LandmarkSet) :
  jsIndex landmarks NOSE_TIP = None \/
  jsIndex landmarks LEFT_EAR_TRAGION = None \/
  jsIndex landmarks RIGHT_EAR_TRAGION = None ->
  (exists e, calculateFaceHeading landmarks = Throw e) /\
  forall (window : Window) (rest : list LandmarkSet) (p : Page),
    let frame := mkResults (Some (landmarks :: rest)) in
    (exists e, fst (onResults window frame p) = Throw e) /\
    moneyDisplay_textContent (snd (onResults window frame p))
      = moneyDisplay_textContent p /\
    sectorData (snd (onResults window frame p)) = sectorData p.
Proof.
  intros Habsent.
  pose proof (calculateFaceHeading_Throw landmarks Habsent) as Hthrow.
  split; [eexists; exact Hthrow |].
  intros window rest p frame. unfold onResults, frame. simpl.
  rewrite (processFace_Throw _ _ _ Hthrow). simpl.
  split; [eexists; reflexivity | auto].
Qed.

(** A face whose landmark array stops before index 454. *)
Lemma C6_missing_landmark_witness :
  jsIndex cutFace RIGHT_EAR_TRAGION = None /\
  (exists e, calculateFaceHeading cutFace = Throw e) /\
  moneyDisplay_textContent
    (snd (onResults sampleWindow (mkResults (Some [cutFace]))
            pageWithoutWheel)) = "100".
Proof.
  assert (H : jsIndex cutFace RIGHT_EAR_TRAGION = None) by reflexivity.
  split; [exact H |].
  destruct (C6_missing_landmark cutFace (or_intror (or_intror H)))
    as [Hthrow Hframe].
  split; [exact Hthrow |].
  destruct (Hframe sampleWindow [] pageWithoutWheel) as (_ & Hdisplay & _).
  exact Hdisplay.
Defined.

(** ** C7 *)

(** C7 (heading derivation).  For every face holding the three landmarks,
    the estimator returns (s (nose.x - (leftEar.x + rightEar.x) / 2),
    s (nose.y - (leftEar.y + rightEar.y) / 2)) with s = 20; any other face
    whose three landmarks have the same x and y gives the same heading,
    whatever its depths and its other landmarks; and the heading is not
    scaled to unit length: [turnedFace] has a heading of length 20. *)
Theorem C7_heading_derivation (landmarks : LandmarkSet)
    (nose leftEar rightEar : Landmark.t) :
  jsIndex landmarks NOSE_TIP = Some nose ->
  jsIndex landmarks LEFT_EAR_TRAGION = Some leftEar ->
  jsIndex landmarks RIGHT_EAR_TRAGION = Some rightEar ->
  sensitivity = 20 /\
  calculateFaceHeading landmarks =
    Ok (Heading.mk
          (sensitivity *
           (Landmark.x nose - (Landmark.x leftEar + Landmark.x rightEar) / 2))
          (sensitivity *
           (Landmark.y nose - (Landmark.y leftEar + Landmark.y rightEar) / 2)))
  /\
  (forall (landmarks' : LandmarkSet) (nose' leftEar' rightEar' : Landmark.t),
     jsIndex landmarks' NOSE_TIP = Some nose' ->
     jsIndex landmarks' LEFT_EAR_TRAGION = Some leftEar' ->
     jsIndex landmarks' RIGHT_EAR_TRAGION = Some rightEar' ->
     Landmark.x nose' = Landmark.x nose ->
     Landmark.y nose' = Landmark.y nose ->
     Landmark.x leftEar' = Landmark.x leftEar ->
     Landmark.y leftEar' = Landmark.y leftEar ->
     Landmark.x rightEar' = Landmark.x rightEar ->
     Landmark.y rightEar' = Landmark.y rightEar ->
     calculateFaceHeading landmarks' = calculateFaceHeading landmarks) /\
  (exists h, calculateFaceHeading turnedFace = Ok h /\
             Heading.x h * Heading.x h + Heading.y h * Heading.y h = 400).
Proof.
  intros Hn Hl Hr.
  split; [reflexivity |]. split; [| split].
  - rewrite (calculateFaceHeading_Ok landmarks nose leftEar rightEar Hn Hl Hr).
    f_equal. f_equal; ring.
  - intros landmarks' nose' leftEar' rightEar' Hn' Hl' Hr' E1 E2 E3 E4 E5 E6.
    rewrite (calculateFaceHeading_Ok _ _ _ _ Hn Hl Hr).
    rewrite (calculateFaceHeading_Ok _ _ _ _ Hn' Hl' Hr').
    rewrite E1, E2, E3, E4, E5, E6. reflexivity.
  - eexists. split.
    + apply (calculateFaceHeading_Ok turnedFace (Landmark.mk 1 0 0)
               (Landmark.mk 0 0 0) (Landmark.mk 0 0 0)); reflexivity.
    + simpl. unfold sensitivity. field.
Qed.

Lemma C7_heading_derivation_witness :
  calculateFaceHeading turnedFace =
    Ok (Heading.mk (sensitivity * (1 - (0 + 0) / 2))
                   (sensitivity * (0 - (0 + 0) / 2))).
Proof.
  apply (C7_heading_derivation turnedFace (Landmark.mk 1 0 0)
           (Landmark.mk 0 0 0) (Landmark.mk 0 0 0));
    reflexivity.
Defined.

(** ** C8 *)

(** C8, as claimed, fails.  With no wheel generated, a frame holding one
    complete face replaces the displayed prize 100 by 0: the caller does
    display the value returned. *)
Lemma C8_uninitialized_counterexample :
  sectorData pageWithoutWheel = None /\
  moneyDisplay_textContent pageWithoutWheel = "100" /\
  onResults sampleWindow (mkResults (Some [turnedFace])) pageWithoutWheel
    = (Ok tt,
       set_moneyDisplay "0"
         (set_canvasElement
            (mkCanvas 1280 720
               [ClearRect 0 0 1280 720;
                StrokeLine (1280 / 2) (720 / 2)
                  (1280 / 2 + (1 - (0 + 0) / 2) * 20 * (Rmax 1280 720 * 1.5))
                  (720 / 2 + (0 - (0 + 0) / 2) * 20 * (Rmax 1280 720 * 1.5))
                  6 "#0062FF";
                FillStrokeCircle (1280 / 2) (720 / 2) 10
                  "#FFFFFF" "#00008B" 2])
            pageWithoutWheel)).
Proof.
  split; [reflexivity |]. split; reflexivity.
Qed.

(** C8, amended (uninitialised wheel).  With no wheel generated the
    resolver returns 0 for every heading; 0 is no value of the prize table,
    and no colour of the palette has it as its prize; and a frame holding
    one complete face writes that 0 to the prize display. *)
Theorem C8_uninitialized_wheel (hx hy : R) (window : Window)
    (landmarks : LandmarkSet) (h : Heading.t) (p : Page) :
  sectorData p = None ->
  calculateFaceHeading landmarks = Ok h ->
  detectDrawnRaySectorPrize None hx hy = JsNumber 0 /\
  (forall c v, prizeValues !! c = Some v -> v <> 0%Z) /\
  (forall c, c ∈ palette -> prizeOf (Some c) <> JsNumber 0) /\
  fst (onResults window (mkResults (Some [landmarks])) p) = Ok tt /\
  moneyDisplay_textContent
    (snd (onResults window (mkResults (Some [landmarks])) p)) = "0".
Proof.
  intros Hnone Hh.
  split; [reflexivity |]. split; [| split].
  { intros c v Hv. pose proof (prizeValues_positive c v Hv). lia. }
  { intros c Hc. destruct (prizeOf_palette c Hc) as (n & -> & Hn).
    intros [= E]. lia. }
  destruct (onResults_display window landmarks h p Hh) as [Hok Htext].
  split; [exact Hok |]. rewrite Htext, Hnone. reflexivity.
Qed.

Lemma C8_uninitialized_wheel_witness :
  moneyDisplay_textContent
    (snd (onResults sampleWindow (mkResults (Some [turnedFace]))
            pageWithoutWheel)) = "0".
Proof.
  apply (C8_uninitialized_wheel 1 0 sampleWindow turnedFace
           (Heading.mk ((1 - (0 + 0) / 2) * sensitivity)
                       ((0 - (0 + 0) / 2) * sensitivity))
           pageWithoutWheel);
    reflexivity.
Defined.

(** ** C9 *)

(** C9 (resize frame condition).  A redraw leaves [sectorData], the prize
    display and the tracking canvas as they were, whatever the window
    size; so does any sequence of redraws.  The sector angles a redraw
    computes are those of [sectorAngles], the same for every window size.
    Processing a frame leaves [sectorData] as it was, and so does any
    sequence of resize and frame events. *)
Theorem C9_resize_frame (window : Window) (windows : list Window)
    (results : Results) (events : list Event) (p : Page) :
  (sectorData (drawBackground window p) = sectorData p /\
   moneyDisplay_textContent (drawBackground window p)
     = moneyDisplay_textContent p /\
   canvasElement (drawBackground window p) = canvasElement p) /\
  sectorData (run (Resize <$> windows) p) = sectorData p /\
  (forall (sd : SectorData R) cx cy radius,
     fst (layoutLoop sd cx cy radius (totalSectors sd) 0 (- PI / 2))
       = sectorAngles sd) /\
  sectorData (snd (onResults window results p)) = sectorData p /\
  sectorData (run events p) = sectorData p.
Proof.
  assert (Hdraw : forall w q,
            sectorData (drawBackground w q) = sectorData q /\
            moneyDisplay_textContent (drawBackground w q)
              = moneyDisplay_textContent q /\
            canvasElement (drawBackground w q) = canvasElement q).
  { intros w q. unfold drawBackground.
    destruct (sectorData q) as [sd |] eqn:E; [| rewrite E; auto].
    destruct (layoutLoop sd _ _ _ _ _ _) as [ss cmds]. simpl. auto. }
  assert (Hrun : forall es q, sectorData (run es q) = sectorData q).
  { intros es. unfold run.
    induction es as [| e es IH]; intros q; simpl; [reflexivity |].
    rewrite IH. destruct e as [w | w r]; simpl.
    - apply Hdraw.
    - apply onResults_frame. }
  split; [apply Hdraw |]. split; [apply Hrun |]. split.
  { intros sd cx cy radius. apply layoutLoop_geometry. }
  split; [apply onResults_frame | apply Hrun].
Qed.

(** ** C10 *)



